(** * TestUtil.js of fb-babel-plugin-utils: a shallow embedding

    The module under study is
    [src/packages/fb-babel-plugin-utils/TestUtil.js]: a helper that strips
    non-semantic fields from Babel syntax trees, compares two sources by
    their stripped trees, reports where their renderings diverge, and runs a
    table of test cases.

    Modelling choices, all following the source:
    - a JavaScript value is a tree: primitives, arrays ([list]) and objects
      ([gmap] from property name to value).  The trees the parser returns
      are freshly built for each call, so the in-place mutation of
      [stripMeta] is rendered as the function from the tree before to the
      tree after;
    - objects carry own properties only (no prototype chain), arrays carry
      their elements only;
    - numbers are IEEE-754 doubles, kept as the Standard Library's
      [spec_float]; the code never computes with them;
    - a computation may write to the console and may throw: the monad [M];
    - Babel's parser and generator, [String.prototype.trim], json-diff,
      the [Error] objects the engine builds and the test framework are
      collaborators of the module: they are the Variables of the Section
      [TestUtil]. *)

From Stdlib Require Import Floats.SpecFloat Ascii String.
From stdpp Require Import gmap strings list fin_maps pretty.

Set Warnings "-register-all".
Set Default Proof Using "Type".

(** ** JavaScript values *)

Definition number : Set := spec_float.

#[global] Instance number_eq_dec : EqDecision number.
Proof. solve_decision. Defined.

Inductive value : Type :=
| VUndefined
| VNull
| VBool (b : bool)
| VNum (n : number)
| VStr (s : string)
| VArr (elements : list value)
| VObj (properties : gmap string value).

(** ToBoolean: [undefined], [null], [false], [+0], [-0], [NaN] and the empty
    string are falsy, everything else is truthy. *)
Definition truthy (v : value) : bool :=
  match v with
  | VUndefined | VNull => false
  | VBool b => b
  | VNum (S754_zero _) | VNum S754_nan => false
  | VNum _ => true
  | VStr s => negb (bool_decide (s = ""))
  | VArr _ | VObj _ => true
  end.

(** [typeof v === 'object']: true of [null], arrays and objects. *)
Definition typeof_object (v : value) : bool :=
  match v with
  | VNull | VArr _ | VObj _ => true
  | _ => false
  end.

(** [v[key]] for a value that is neither [undefined] nor [null] and a [key]
    that is a plain property name (not an array index, not [length]): the
    own property of an object, [undefined] everywhere else. *)
Definition get_field (v : value) (key : string) : value :=
  match v with
  | VObj m => default VUndefined (m !! key)
  | _ => VUndefined
  end.

(** [delete node[key]] for a plain property name: removes the own property
    of an object; arrays and primitives have no such property. *)
Definition delete_field (node : gmap string value) (key : string)
  : gmap string value := delete key node.

(** What [assert.deepStrictEqual] compares at a key that is in one of the
    two objects: equal values when both have it, a failure otherwise. *)
Definition same_property (eq : value → value → bool)
    (o1 o2 : option value) : option bool :=
  match o1, o2 with
  | Some x, Some y => Some (eq x y)
  | None, None => None
  | _, _ => Some false
  end.

(** The comparison of Node's [assert.deepStrictEqual] on value trees:
    primitives by [Object.is], arrays by length and by element in order,
    objects by their sets of keys and by value at each key. *)
Fixpoint deep_equal (a b : value) : bool :=
  match a, b with
  | VUndefined, VUndefined | VNull, VNull => true
  | VBool x, VBool y => bool_decide (x = y)
  | VNum x, VNum y => bool_decide (x = y)
  | VStr x, VStr y => bool_decide (x = y)
  | VArr xs, VArr ys =>
      (fix elementwise (xs ys : list value) : bool :=
         match xs, ys with
         | [], [] => true
         | x :: xs', y :: ys' => deep_equal x y && elementwise xs' ys'
         | _, _ => false
         end) xs ys
  | VObj m1, VObj m2 =>
      map_fold (λ _ (same : bool) acc, same && acc) true
        (merge (same_property deep_equal) m1 m2)
  | _, _ => false
  end.

(** Nesting depth, the measure for induction on value trees. *)
Fixpoint depth (v : value) : nat :=
  match v with
  | VArr l => S (foldr Nat.max 0 (depth <$> l))
  | VObj m => S (map_fold (λ _ n acc, Nat.max n acc) 0 (depth <$> m))
  | _ => 0
  end.

(** A step from a node to a child, and the value at the end of a path. *)
Inductive step : Type :=
| Field (key : string)
| Index (i : nat).

Definition child (s : step) (v : value) : option value :=
  match s, v with
  | Field k, VObj m => m !! k
  | Index i, VArr l => l !! i
  | _, _ => None
  end.

Fixpoint lookup_path (p : list step) (v : value) : option value :=
  match p with
  | [] => Some v
  | s :: p' => child s v ≫= lookup_path p'
  end.

(** The path goes through a property named in [keys]. *)
Definition through (keys : list string) (p : list step) : Prop :=
  ∃ k, Field k ∈ p ∧ k ∈ keys.

(** The same, as a test. *)
Definition through_b (keys : list string) (p : list step) : bool :=
  existsb (λ s, match s with
                | Field k => bool_decide (k ∈ keys)
                | Index _ => false
                end) p.

(** ** Errors, console and the monad of effects *)

Record js_error : Type := JsError {
  err_name : string;
  err_message : string;
  err_stack : string;
}.

Inductive result (A : Type) : Type :=
| Return (a : A)
| Throw (e : js_error).
Arguments Return {A} a.
Arguments Throw {A} e.

(** A computation: the lines it wrote with [console.error], and how it
    ended. *)
Record M (A : Type) : Type := MkM {
  console : list string;
  outcome : result A;
}.
Arguments MkM {A} console outcome.
Arguments console {A} m.
Arguments outcome {A} m.

Definition lift {A} (r : result A) : M A := MkM [] r.
Definition throw {A} (e : js_error) : M A := MkM [] (Throw e).
Definition console_error (line : string) : M unit := MkM [line] (Return tt).

#[global] Instance M_ret : MRet M := λ A a, MkM [] (Return a).

#[global] Instance M_bind : MBind M := λ A B f m,
  match outcome m with
  | Return a => MkM (console m ++ console (f a)) (outcome (f a))
  | Throw e => MkM (console m) (Throw e)
  end.

(** [try { body } catch (e) { handler e }]. *)
Definition try_catch {A} (body : M A) (handler : js_error → M A) : M A :=
  match outcome body with
  | Return a => body
  | Throw e => MkM (console body ++ console (handler e)) (outcome (handler e))
  end.

(** ** Strings *)

Definition newline : string := String (ascii_of_nat 10) "".

(** [s.charAt(i)]: the character at [i] as a string, empty out of range. *)
Definition charAt (s : string) (i : nat) : string :=
  match String.get i s with
  | Some c => String c ""
  | None => ""
  end.

(** [s.substr(start, len)] for non-negative arguments. *)
Definition substr (s : string) (start len : nat) : string :=
  String.substring start len s.

(** [s.includes(sub)]. *)
Fixpoint includes (s sub : string) : bool :=
  String.prefix sub s ||
  match s with
  | "" => false
  | String _ s' => includes s' sub
  end.

(** The quote characters, and a text in which no string literal is written
    with double quotes: in the words of the specification, text in the
    canonical style "single-quoted string literals". *)
Definition double_quote : string := String (ascii_of_nat 34) "".
Definition single_quote : string := String (ascii_of_nat 39) "".


(** ** stripMeta (TestUtil.js, lines 19-46) *)

Definition IGNORE_KEYS : list string :=
  [ "__clone"; "start"; "end"; "raw"; "rawValue"; "loc"; "tokens";
    "parenthesized"; "parenStart" ].

(** [options && options.comments], as a condition. *)
Definition keeps_comments (options : value) : bool :=
  truthy options && truthy (get_field options "comments").

(** The local [ignoreKeys] of [stripMeta]. *)
Definition ignoreKeys (options : value) : list string :=
  if keeps_comments options
  then IGNORE_KEYS
  else IGNORE_KEYS ++ ["leadingComments"; "trailingComments"].

(** [ignoreKeys.forEach(key => delete node[key])]. *)
Definition delete_keys (keys : list string) (node : gmap string value)
  : gmap string value := foldl delete_field node keys.

(** [node[p] && typeof node[p] === 'object']. *)
Definition is_object (v : value) : bool := truthy v && typeof_object v.

(** The body of [stripMeta] on a node that is not [undefined] or [null]:
    the named keys are deleted, and every remaining property (every element
    of an array) that is an object is stripped in turn.  Deleting a key of
    the node and stripping a child touch different objects of the tree; the
    definition strips the children first so that the recursion is
    structural, and [stripMeta_node_object] gives the source's order. *)
Fixpoint stripMeta_node (options : value) (node : value) : value :=
  match node with
  | VObj m =>
      VObj (delete_keys (ignoreKeys options)
              ((λ c, if is_object c then stripMeta_node options c else c)
                 <$> m))
  | VArr l =>
      VArr ((λ c, if is_object c then stripMeta_node options c else c) <$> l)
  | _ => node
  end.

(** What the loop of [stripMeta] does to one property value. *)
Definition strip_child (options : value) (c : value) : value :=
  if is_object c then stripMeta_node options c else c.

(** ** firstCommonSubstring (TestUtil.js, lines 67-75) *)

(** The [for] loop: [i] after the loop, started at [i] with [fuel]
    iterations left. *)
Fixpoint firstCommonSubstring_loop (fuel i : nat) (left right : string)
  : nat :=
  match fuel with
  | 0 => i
  | S fuel' =>
      if (i <? String.length left) && (i <? String.length right) then
        if negb (bool_decide (charAt left i = charAt right i))
        then i
        else firstCommonSubstring_loop fuel' (S i) left right
      else i
  end.

(** The loop runs at most [left.length] times. *)
Definition firstCommonSubstring (left right : string) : string :=
  substr left 0
    (firstCommonSubstring_loop (String.length left) 0 left right).

Definition excerptLength : nat := 60.

(** ** The collaborators' interfaces *)

Record parser_options : Type := ParserOptions {
  sourceType : string;
  parser_plugins : list string;
}.

Record generator_options : Type := GeneratorOptions {
  comments : bool;
  quotes : option string;
}.

(** One entry of a test table: [testInfo.throws] (undefined when the entry
    has no such key), [testInfo.input], [testInfo.output] and
    [testInfo.options]. *)
Record testInfo : Type := TestInfo {
  ti_throws : value;
  ti_input : string;
  ti_output : string;
  ti_options : value;
}.

(** ** A small concrete toolchain

    A stand-in for the collaborators, used to run the model on concrete
    inputs: a source is one line of text, a leading [#] marks a comment, and
    a [!] anywhere is a syntax error. *)
Module Toy.

Definition num (z : Z) : value := VNum (binary_normalize 53 1024 z 0 false).

Definition obj (l : list (string * value)) : value := VObj (list_to_map l).

Definition syntax_error : js_error :=
  JsError "SyntaxError" "Unexpected token" "at Parser.raise".

Definition comment_of (code : string) : list (string * value) :=
  if String.prefix "#" code
  then [("leadingComments",
         VArr [obj [("type", VStr "CommentLine"); ("start", num 0)]])]
  else [].

Definition text_of (code : string) : string :=
  if String.prefix "#" code
  then String.substring 1 (String.length code) code
  else code.

Definition parse (code : string) (_ : parser_options) : result value :=
  if includes code "!" then Throw syntax_error
  else Return (obj
    [ ("type", VStr "File");
      ("program", obj
         [ ("type", VStr "Program");
           ("start", num 0);
           ("end", num (Z.of_nat (String.length code)));
           ("body", VArr [ obj
              ([ ("type", VStr "Statement");
                 ("text", VStr (text_of code));
                 ("extra", obj [("raw", VStr code);
                                ("parenthesized", VBool false)]) ]
               ++ comment_of code) ]) ]) ]).

Definition printed (ast : value) : string :=
  match lookup_path [Field "program"; Field "body"; Index 0] ast with
  | Some stmt =>
      match get_field stmt "leadingComments", get_field stmt "text" with
      | VArr _, VStr s => String "#" s
      | _, VStr s => s
      | _, _ => ""
      end
  | None => ""
  end.

Definition generate (ast : value) (_ : generator_options) (_ : string)
  : string := printed ast.

Fixpoint trim_left (s : string) : string :=
  match s with
  | String " " s' => trim_left s'
  | _ => s
  end.

Definition trim (s : string) : string :=
  String.rev (trim_left (String.rev (trim_left s))).

Definition diffString (actual expected : value) : string :=
  if deep_equal actual expected then "" else "~ differs".

Definition AssertionError (actual expected : value) : js_error :=
  JsError "AssertionError"
    "Expected values to be strictly deep-equal" "at deepStrictEqual".

Definition TypeError (what : string) : js_error :=
  JsError "TypeError" what "at TestUtil".

Definition Error_stack (message : string) : string := "at new Error".

Definition JestAssertionError (matcher : string) : js_error :=
  JsError "JestAssertionError" matcher "at expect".

(** A transform that appends a semicolon, and refuses empty input. *)
Definition transformSync (source : string) (plugins : unit) : M string :=
  if bool_decide (source = "")
  then throw (JsError "Error" "nothing to transform" "at transformSync")
  else mret (source +:+ ";").

(** The program of a source that parses. *)
Definition program_of (code : string) : value :=
  match parse code (ParserOptions "module" ["flow"; "jsx"]) with
  | Return file => get_field file "program"
  | Throw _ => VUndefined
  end.

(** A statement that carries every field [stripMeta] may delete, on the
    statement itself and on the literal under it. *)
Definition annotated : value :=
  obj [ ("type", VStr "Program");
        ("start", num 0);
        ("body", VArr [ obj
           [ ("type", VStr "ExpressionStatement");
             ("__clone", VObj ∅);
             ("start", num 0);
             ("end", num 3);
             ("raw", VStr "(a)");
             ("rawValue", VStr "a");
             ("loc", obj [("line", num 1)]);
             ("tokens", VArr []);
             ("parenthesized", VBool true);
             ("parenStart", num 0);
             ("leadingComments",
              VArr [obj [("type", VStr "CommentBlock"); ("start", num 0)]]);
             ("trailingComments",
              VArr [obj [("type", VStr "CommentLine"); ("end", num 9)]]);
             ("expression", obj
                [ ("type", VStr "Identifier");
                  ("name", VStr "a");
                  ("loc", obj [("line", num 1)]) ]) ] ]) ].


(** A language of one string literal.  The parser keeps the literal as it
    was written in [extra.raw]; the generator prints a literal, as
    @babel/generator does, by its [extra.raw] when it has one that agrees
    with its value, and by its value in the quotes asked for otherwise. *)
Definition literal (value_text : string) (extra : list (string * value))
  : value :=
  obj [ ("type", VStr "File");
        ("program", obj
           [ ("type", VStr "Program");
             ("body", VArr [ obj
                ([ ("type", VStr "StringLiteral");
                   ("value", VStr value_text) ] ++ extra) ]) ]) ].

Definition parse_literal (code : string) (_ : parser_options)
  : result value :=
  let inner := String.substring 1 (String.length code - 2) code in
  Return (literal inner
            [("extra", obj [("raw", VStr code); ("rawValue", VStr inner)])]).

Definition quote_of (options : generator_options) : string :=
  match quotes options with
  | Some "single" => single_quote
  | _ => double_quote
  end.

Definition generate_raw (ast : value) (options : generator_options)
    (_ : string) : string :=
  match lookup_path [Field "program"; Field "body"; Index 0] ast with
  | Some lit =>
      match lookup_path [Field "extra"; Field "raw"] lit,
            lookup_path [Field "extra"; Field "rawValue"] lit,
            get_field lit "value" with
      | Some (VStr raw), Some rawValue, VStr v =>
          if deep_equal rawValue (VStr v) then raw
          else quote_of options +:+ v +:+ quote_of options
      | _, _, VStr v => quote_of options +:+ v +:+ quote_of options
      | _, _, _ => ""
      end
  | None => ""
  end.

End Toy.

(** ** TestUtil.js over its collaborators *)

Section TestUtil.

(** [babelParser.parse(code, options)]: the tree of the file, or the parse
    error it throws. *)
Variable babelParser_parse : string → parser_options → result value.
(** [generate(ast, options, code).code]. *)
Variable generate : value → generator_options → string → string.
(** [String.prototype.trim]. *)
Variable trim : string → string.
(** [jsonDiff.diffString(actual, expected)]. *)
Variable jsonDiff_diffString : value → value → string.
(** The error [assert.deepStrictEqual(actual, expected)] throws when the
    two differ. *)
Variable AssertionError : value → value → js_error.
(** The error the engine throws on a property access or a [delete] on
    [undefined] or [null]. *)
Variable TypeError : string → js_error.
(** The stack [new Error(message)] captures. *)
Variable Error_stack : string → string.
(** The error a failed [expect] matcher throws. *)
Variable JestAssertionError : string → js_error.
(** [babel.transformSync(source, {plugins}).code]. *)
Variable plugins_t : Type.
Variable babel_transformSync : string → plugins_t → M string.

(** [stripMeta(node, options)], lines 31-46: the first [delete node[key]]
    throws on [undefined] and [null]; every other node is stripped and
    returned. *)
Definition stripMeta (node options : value) : M value :=
  match node with
  | VUndefined | VNull => throw (TypeError "delete node[key]")
  | _ => mret (stripMeta_node options node)
  end.

(** [getDefaultTransformForPlugins(plugins)], lines 48-54: the function
    returned declares one parameter; a second argument is dropped. *)
Definition getDefaultTransformForPlugins (plugins : plugins_t)
  : string → value → M string :=
  λ source _, babel_transformSync source plugins.

(** [parse(code)], lines 56-61. *)
Definition parse (code : string) : M value :=
  lift (babelParser_parse code (ParserOptions "module" ["flow"; "jsx"])).

(** [prettyPrint(input)], lines 63-65. *)
Definition prettyPrint (input : string) : M string :=
  ast ← parse input;
  mret (trim (generate ast (GeneratorOptions true None) input)).

(** [normalizeSourceCode(sourceCode)], lines 82-93. *)
Definition normalizeSourceCode (sourceCode : string) : M string :=
  ast ← parse sourceCode;
  mret (trim (generate ast (GeneratorOptions true (Some "single"))
                sourceCode)).

(** [v.key] as an expression: throws on [undefined] and [null]. *)
Definition member (v : value) (key : string) : M value :=
  match v with
  | VUndefined | VNull => throw (TypeError key)
  | _ => mret (get_field v key)
  end.

(** [assert.deepStrictEqual(actual, expected)]. *)
Definition assert_deepStrictEqual (actual expected : value) : M unit :=
  if deep_equal actual expected then mret tt
  else throw (AssertionError actual expected).

(** The template literal of lines 125-143. *)
Definition errMessage (expectedFormattedCode actualFormattedCode commonStr
    excerptDiffFromExpected excerptDiffFromActual diff : string) : string :=
  "deepEqual node AST assert failed for the following code:" +:+ newline
  +:+ newline
  +:+ "Expected output: <<<" +:+ expectedFormattedCode +:+ ">>>" +:+ newline
  +:+ newline
  +:+ "Actual output: <<<" +:+ actualFormattedCode +:+ ">>>" +:+ newline
  +:+ newline
  +:+ "First common string: <<<" +:+ commonStr +:+ ">>>" +:+ newline
  +:+ newline
  +:+ "The first difference is (" +:+ pretty excerptLength
  +:+ " chars max):" +:+ newline
  +:+ newline
  +:+ "Expected : <<<" +:+ excerptDiffFromExpected +:+ ">>>" +:+ newline
  +:+ newline
  +:+ "Actual   : <<<" +:+ excerptDiffFromActual +:+ ">>>" +:+ newline
  +:+ newline
  +:+ "AST diff:" +:+ newline
  +:+ "====" +:+ newline
  +:+ diff +:+ newline
  +:+ "====" +:+ newline.

(** [new Error(message)] followed by [err.stack = stack]. *)
Definition new_Error (message : string) : js_error :=
  JsError "Error" message (Error_stack message).
Definition set_stack (err : js_error) (stack : string) : js_error :=
  JsError (err_name err) (err_message err) stack.

(** The [catch] block of [assertSourceAstEqual], lines 107-149. *)
Definition report_mismatch (expected actual : string)
    (expectedTree actualTree : value) (e : js_error) : M unit :=
  expectedFormattedCode ← prettyPrint expected;
  actualFormattedCode ← prettyPrint actual;
  let commonStr :=
    firstCommonSubstring expectedFormattedCode actualFormattedCode in
  let excerptDiffFromExpected :=
    substr expectedFormattedCode (String.length commonStr) excerptLength in
  let excerptDiffFromActual :=
    substr actualFormattedCode (String.length commonStr) excerptLength in
  let message :=
    errMessage expectedFormattedCode actualFormattedCode commonStr
      excerptDiffFromExpected excerptDiffFromActual
      (jsonDiff_diffString actualTree expectedTree) in
  console_error message;;
  let err := new_Error message in
  throw (set_stack err (err_stack e)).

(** [assertSourceAstEqual(expected, actual, options)], lines 96-150. *)
Definition assertSourceAstEqual (expected actual : string) (options : value)
  : M unit :=
  expectedTree ← (code ← normalizeSourceCode expected;
                  file ← parse code;
                  program ← member file "program";
                  stripMeta program options);
  actualTree ← (code ← normalizeSourceCode actual;
                file ← parse code;
                program ← member file "program";
                stripMeta program options);
  try_catch (assert_deepStrictEqual actualTree expectedTree)
    (report_mismatch expected actual expectedTree actualTree).

(** The test framework: [expect(fn).toThrow()], [expect(fn).toThrow(text)]
    and [expect(fn).not.toThrow()], each applied to the run of [fn]. *)
Definition expect_toThrow {A} (run : M A) : M unit :=
  match outcome run with
  | Throw _ => MkM (console run) (Return tt)
  | Return _ => MkM (console run) (Throw (JestAssertionError "toThrow"))
  end.

Definition expect_toThrow_text {A} (run : M A) (text : string) : M unit :=
  match outcome run with
  | Throw e =>
      if includes (err_message e) text
      then MkM (console run) (Return tt)
      else MkM (console run) (Throw (JestAssertionError "toThrow"))
  | Return _ => MkM (console run) (Throw (JestAssertionError "toThrow"))
  end.

Definition expect_not_toThrow {A} (run : M A) : M unit :=
  match outcome run with
  | Return _ => MkM (console run) (Return tt)
  | Throw _ => MkM (console run) (Throw (JestAssertionError "not.toThrow"))
  end.

(** The callback [testSection] hands to [it] for one entry, lines
    156-172. *)
Definition test_callback (transform : string → value → M string)
    (options : value) (testInfo : testInfo) : M unit :=
  match ti_throws testInfo with
  | VBool true =>
      expect_toThrow (transform (ti_input testInfo) (ti_options testInfo))
  | VStr text =>
      expect_toThrow_text
        (transform (ti_input testInfo) (ti_options testInfo)) text
  | VBool false =>
      transform (ti_input testInfo) (ti_options testInfo);; mret tt
  | _ =>
      expect_not_toThrow
        (actual ← transform (ti_input testInfo) (ti_options testInfo);
         assertSourceAstEqual (ti_output testInfo) actual options)
  end.

(** [testSection(testData, transform, options)], lines 152-175: the tests
    registered with [it], by name, in the order of [Object.keys]; a test
    passes when its callback returns. *)
Definition testSection (testData : list (string * testInfo))
    (transform : string → value → M string) (options : value)
  : list (string * M unit) :=
  (λ entry, (entry.1, test_callback transform options entry.2)) <$> testData.

(** [testCase(name, plugins, testData, options)], lines 177-185: the group
    registered with [describe]. *)
Definition testCase (name : string) (plugins : plugins_t)
    (testData : list (string * testInfo)) (options : value)
  : string * list (string * M unit) :=
  (name, testSection testData (getDefaultTransformForPlugins plugins) options).

Definition passes (test : M unit) : Prop := outcome test = Return tt.

(** *** The normalizer in the words of the specification (section 4.1)

    Parse; re-print in the canonical style (single quotes, comments
    retained) and trim; re-parse the canonical text; strip the excluded
    fields from its program. *)
Definition canonical_style : generator_options :=
  GeneratorOptions true (Some "single").

Definition normalize (sourceText : string) (options : value) : M value :=
  tree1 ← parse sourceText;
  let canonical := trim (generate tree1 canonical_style sourceText) in
  tree2 ← parse canonical;
  program ← member tree2 "program";
  stripMeta program options.

(** The divergence report (section 4.2) for two renderings and two trees:
    the renderings, their common prefix, the excerpt of each after that
    prefix, and the structural diff. *)
Definition divergence_report (expectedFormattedCode actualFormattedCode
    : string) (expectedTree actualTree : value) : string :=
  let commonStr :=
    firstCommonSubstring expectedFormattedCode actualFormattedCode in
  errMessage expectedFormattedCode actualFormattedCode commonStr
    (substr expectedFormattedCode (String.length commonStr) excerptLength)
    (substr actualFormattedCode (String.length commonStr) excerptLength)
    (jsonDiff_diffString actualTree expectedTree).

(** The comparison and the report, given the two normalized trees. *)
Definition compare_trees (expected actual : string)
    (expectedTree actualTree : value) : M unit :=
  try_catch (assert_deepStrictEqual actualTree expectedTree)
    (report_mismatch expected actual expectedTree actualTree).

(** ** Value trees: induction and structural equality *)

Lemma fold_max_bound (m : gmap string nat) (k : string) (n : nat) :
  m !! k = Some n → n ≤ map_fold (λ _ n acc, Nat.max n acc) 0 m.
Proof.
  revert k n.
  apply (map_fold_weak_ind
           (λ r (m : gmap string nat), ∀ k n, m !! k = Some n → n ≤ r)).
  - intros k n Hk. by rewrite lookup_empty in Hk.
  - intros i x m' r Hi IH k n Hk.
    destruct (decide (i = k)) as [->|Hne].
    + rewrite lookup_insert_eq in Hk. injection Hk as ->. lia.
    + rewrite lookup_insert_ne in Hk by done.
      specialize (IH k n Hk). lia.
Qed.

Lemma foldr_max_bound (l : list nat) (n : nat) :
  n ∈ l → n ≤ foldr Nat.max 0 l.
Proof.
  induction l as [|x l IH]; intros Hin.
  - by apply elem_of_nil in Hin.
  - apply elem_of_cons in Hin as [->|Hin]; simpl; [lia|].
    specialize (IH Hin). lia.
Qed.

Lemma depth_property (m : gmap string value) (k : string) (v : value) :
  m !! k = Some v → depth v < depth (VObj m).
Proof.
  intros Hk. simpl. apply Nat.lt_succ_r.
  apply (fold_max_bound _ k). by rewrite lookup_fmap, Hk.
Qed.

Lemma depth_element (l : list value) (v : value) :
  v ∈ l → depth v < depth (VArr l).
Proof.
  intros Hin. simpl. apply Nat.lt_succ_r.
  apply foldr_max_bound. by apply list_elem_of_fmap_2.
Qed.

(** Induction on value trees, with the hypothesis on every element of an
    array and every property of an object. *)
Lemma value_tree_ind (P : value → Prop) :
  P VUndefined → P VNull → (∀ b, P (VBool b)) → (∀ n, P (VNum n)) →
  (∀ s, P (VStr s)) →
  (∀ l, Forall P l → P (VArr l)) →
  (∀ m, map_Forall (λ _, P) m → P (VObj m)) →
  ∀ v, P v.
Proof.
  intros Hu Hn Hb Hnum Hs Harr Hobj v.
  remember (depth v) as d eqn:Hd.
  revert v Hd. induction d as [d IH] using lt_wf_ind. intros v ->.
  destruct v as [| | | | |l|m]; auto.
  - apply Harr, Forall_forall. intros x Hx.
    exact (IH _ (depth_element _ _ Hx) x eq_refl).
  - apply Hobj. intros k x Hk.
    exact (IH _ (depth_property _ _ _ Hk) x eq_refl).
Qed.

Lemma fold_and_true (m : gmap string bool) :
  map_fold (λ _ (same : bool) acc, same && acc) true m = true
  ↔ ∀ k b, m !! k = Some b → b = true.
Proof.
  apply (map_fold_weak_ind
           (λ r (m : gmap string bool),
              r = true ↔ ∀ k b, m !! k = Some b → b = true)).
  - split; [|done]. intros _ k b Hk. by rewrite lookup_empty in Hk.
  - intros i x m' r Hi IH. rewrite andb_true_iff, IH. split.
    + intros [-> Hall] k b Hk.
      destruct (decide (i = k)) as [->|Hne].
      * rewrite lookup_insert_eq in Hk. by injection Hk as <-.
      * rewrite lookup_insert_ne in Hk by done. eauto.
    + intros Hall. split.
      * apply (Hall i). by rewrite lookup_insert_eq.
      * intros k b Hk. apply (Hall k).
        rewrite lookup_insert_ne; [done|]. intros ->. congruence.
Qed.

Lemma elementwise_eq (xs ys : list value) :
  Forall (λ x, ∀ y, deep_equal x y = true ↔ x = y) xs →
  (fix elementwise (xs ys : list value) : bool :=
     match xs, ys with
     | [], [] => true
     | x :: xs', y :: ys' => deep_equal x y && elementwise xs' ys'
     | _, _ => false
     end) xs ys = true ↔ xs = ys.
Proof.
  intros Hall. revert ys.
  induction Hall as [|x xs Hx _ IH]; intros [|y ys]; try done.
  rewrite andb_true_iff, Hx, IH. split; [intros [-> ->]|intros [= -> ->]]; done.
Qed.

(** [deep_equal] decides equality of value trees: order-sensitive on
    arrays, and on objects sensitive to the set of keys and to the value at
    each key. *)
Lemma deep_equal_eq (a b : value) : deep_equal a b = true ↔ a = b.
Proof.
  revert b. induction a as [| | | | |l IH|m IH] using value_tree_ind;
    intros [| | | | |l'|m']; simpl; try done;
    try (rewrite bool_decide_eq_true; split; congruence).
  - rewrite elementwise_eq by done. split; congruence.
  - rewrite fold_and_true. split.
    + intros Hall. f_equal. apply map_eq. intros k.
      specialize (Hall k). rewrite lookup_merge in Hall.
      destruct (m !! k) as [x|] eqn:Hx, (m' !! k) as [y|] eqn:Hy;
        simpl in Hall; try done.
      * f_equal. apply (IH k x Hx). by apply Hall.
      * by specialize (Hall false eq_refl).
      * by specialize (Hall false eq_refl).
    + intros [= <-] k b. rewrite lookup_merge.
      destruct (m !! k) as [x|] eqn:Hx; simpl; [|done].
      intros [= <-]. by apply (IH k x Hx).
Qed.

(** ** stripMeta: what is deleted, what is kept *)

Lemma lookup_delete_keys (keys : list string) (m : gmap string value)
    (k : string) :
  delete_keys keys m !! k = if decide (k ∈ keys) then None else m !! k.
Proof.
  unfold delete_keys. revert m.
  induction keys as [|key keys IH]; intros m.
  - case_decide as Hin; [|done]. by apply elem_of_nil in Hin.
  - change (foldl delete_field m (key :: keys))
      with (foldl delete_field (delete_field m key) keys).
    rewrite IH. unfold delete_field.
    destruct (decide (k ∈ keys)) as [Hin|Hnin].
    + rewrite decide_True; [done|]. apply elem_of_cons. by right.
    + destruct (decide (key = k)) as [->|Hne].
      * rewrite lookup_delete_eq, decide_True; [done|].
        apply elem_of_cons. by left.
      * rewrite lookup_delete_ne, decide_False; [done| |done].
        rewrite elem_of_cons. intros [->|Hin]; done.
Qed.

Lemma is_object_spec (v : value) :
  is_object v = true ↔ (∃ l, v = VArr l) ∨ (∃ m, v = VObj m).
Proof.
  unfold is_object. split.
  - destruct v as [| |b|n|s|l|m]; simpl; rewrite ?andb_false_r;
      try done; eauto.
  - intros [[l ->]|[m ->]]; done.
Qed.

(** Not recursing into a scalar and recursing into it come to the same:
    [stripMeta_node] returns a scalar as it is. *)
Lemma strip_child_eq (options c : value) :
  strip_child options c = stripMeta_node options c.
Proof.
  unfold strip_child. destruct (is_object c) eqn:Hobj; [done|].
  destruct c as [| | | | |l|m]; try done.
Qed.

(** The source's order: the keys are deleted first, then the loop visits
    the properties that are left. *)
Lemma stripMeta_node_object (options : value) (m : gmap string value) :
  stripMeta_node options (VObj m)
  = VObj (strip_child options <$> delete_keys (ignoreKeys options) m).
Proof.
  simpl. f_equal. apply map_eq. intros k.
  rewrite lookup_fmap, !lookup_delete_keys.
  destruct (decide (k ∈ ignoreKeys options)); [done|].
  by rewrite lookup_fmap.
Qed.

Lemma stripMeta_node_array (options : value) (l : list value) :
  stripMeta_node options (VArr l) = VArr (strip_child options <$> l).
Proof. done. Qed.

Lemma child_stripMeta_node (options : value) (s : step) (t : value) :
  child s (stripMeta_node options t)
  = match s with
    | Field k =>
        if decide (k ∈ ignoreKeys options) then None
        else stripMeta_node options <$> child s t
    | Index _ => stripMeta_node options <$> child s t
    end.
Proof.
  destruct s as [k|i], t as [| | | | |l|m];
    try (simpl; by repeat case_decide).
  - rewrite stripMeta_node_object. simpl.
    rewrite lookup_fmap, lookup_delete_keys.
    destruct (decide (k ∈ ignoreKeys options)); [done|].
    destruct (m !! k); simpl; [|done]. by rewrite strip_child_eq.
  - rewrite stripMeta_node_array. simpl. rewrite list_lookup_fmap.
    destruct (l !! i); simpl; [|done]. by rewrite strip_child_eq.
Qed.

Lemma through_cons (keys : list string) (s : step) (p : list step) :
  through keys (s :: p)
  ↔ (∃ k, s = Field k ∧ k ∈ keys) ∨ through keys p.
Proof.
  unfold through. split.
  - intros (k & Hin & Hk). apply elem_of_cons in Hin as [<-|Hin]; eauto.
  - intros [(k & -> & Hk)|(k & Hin & Hk)]; exists k;
      (split; [|done]); apply elem_of_cons; eauto.
Qed.

(** A path through a deleted key leads nowhere in the stripped tree. *)
Lemma lookup_path_stripped_through (options : value) (p : list step)
    (t : value) :
  through (ignoreKeys options) p →
  lookup_path p (stripMeta_node options t) = None.
Proof.
  revert t. induction p as [|s p IH]; intros t Hthrough.
  - destruct Hthrough as (k & Hin & _). by apply elem_of_nil in Hin.
  - simpl. rewrite child_stripMeta_node.
    apply through_cons in Hthrough as [(k & -> & Hk)|Hthrough].
    + by rewrite decide_True.
    + assert (∀ o : option value,
                (stripMeta_node options <$> o) ≫= lookup_path p = None)
        as Hnone by (intros [v|]; simpl; auto).
      destruct s as [k|i]; [case_decide|]; auto.
Qed.

(** Any other path leads to the stripped form of what it led to. *)
Lemma lookup_path_stripped (options : value) (p : list step) (t : value) :
  ¬ through (ignoreKeys options) p →
  lookup_path p (stripMeta_node options t)
  = stripMeta_node options <$> lookup_path p t.
Proof.
  revert t. induction p as [|s p IH]; intros t Hnot; [done|].
  simpl. rewrite child_stripMeta_node.
  assert (¬ through (ignoreKeys options) p) as Hp.
  { intros H. apply Hnot, through_cons. by right. }
  assert ((stripMeta_node options <$> child s t) ≫= lookup_path p
          = stripMeta_node options <$> (child s t ≫= lookup_path p)) as Heq.
  { destruct (child s t) as [v|]; simpl; [|done]. by apply IH. }
  destruct s as [k|i]; [|done].
  rewrite decide_False; [done|].
  intros Hk. apply Hnot, through_cons. left. eauto.
Qed.

Lemma through_b_spec (keys : list string) (p : list step) :
  through_b keys p = true ↔ through keys p.
Proof.
  unfold through_b. induction p as [|s p IH].
  - split; [done|]. intros (k & Hin & _). by apply elem_of_nil in Hin.
  - change (existsb ?f (s :: p)) with (f s || existsb f p).
    rewrite orb_true_iff, IH, through_cons. split.
    + intros [Hs|Hp]; [left|by right].
      destruct s as [k|i]; [|done]. exists k.
      by apply bool_decide_eq_true in Hs.
    + intros [(k & -> & Hk)|Hp]; [left|by right].
      by apply bool_decide_eq_true.
Qed.

(** A second pass that deletes at least the keys of the first leaves
    nothing of the first to be seen. *)
Lemma stripMeta_node_absorbs (options1 options2 node : value) :
  (∀ k, k ∈ ignoreKeys options1 → k ∈ ignoreKeys options2) →
  stripMeta_node options2 (stripMeta_node options1 node)
  = stripMeta_node options2 node.
Proof.
  intros Hsub.
  induction node as [| | | | |l IH|m IH] using value_tree_ind; try done.
  - rewrite !stripMeta_node_array. f_equal.
    rewrite <- list_fmap_compose. apply list_fmap_ext.
    intros i x Hx. simpl. rewrite !strip_child_eq.
    eapply Forall_lookup_1 in IH; [|done]. done.
  - rewrite !stripMeta_node_object. f_equal. apply map_eq. intros k.
    rewrite !lookup_fmap, !lookup_delete_keys.
    destruct (decide (k ∈ ignoreKeys options2)) as [Hk2|Hk2]; [done|].
    rewrite lookup_fmap, lookup_delete_keys.
    rewrite decide_False by (intros Hk1; by apply Hk2, Hsub).
    destruct (m !! k) as [x|] eqn:Hx; simpl; [|done].
    rewrite !strip_child_eq. f_equal. by apply (IH k x).
Qed.

Lemma stripMeta_node_idempotent (options node : value) :
  stripMeta_node options (stripMeta_node options node)
  = stripMeta_node options node.
Proof. by apply stripMeta_node_absorbs. Qed.

Lemma ignoreKeys_cases (options : value) :
  (keeps_comments options = true ∧ ignoreKeys options = IGNORE_KEYS) ∨
  (keeps_comments options = false ∧
   ignoreKeys options
   = IGNORE_KEYS ++ ["leadingComments"; "trailingComments"]).
Proof. unfold ignoreKeys. destruct (keeps_comments options); auto. Qed.

Lemma stripMeta_returns (node options stripped : value) :
  stripMeta node options = mret stripped →
  stripped = stripMeta_node options node.
Proof.
  unfold stripMeta, throw, mret, M_ret.
  destruct node; intros [=]; done.
Qed.

Lemma stripMeta_node_to_object (options v : value)
    (m' : gmap string value) :
  stripMeta_node options v = VObj m' →
  ∃ m, v = VObj m
       ∧ m' = strip_child options <$> delete_keys (ignoreKeys options) m.
Proof.
  destruct v as [| | | | |l|m]; try done.
  rewrite stripMeta_node_object. intros [= <-]. eauto.
Qed.

Lemma stripMeta_node_scalar (options v : value) :
  is_object v = false → stripMeta_node options v = v.
Proof. intros Hv. by rewrite <- strip_child_eq; unfold strip_child; rewrite Hv. Qed.

Lemma IGNORE_KEYS_ignored (options : value) (k : string) :
  k ∈ IGNORE_KEYS → k ∈ ignoreKeys options.
Proof.
  intros Hk. destruct (ignoreKeys_cases options) as [[_ ->]|[_ ->]]; [done|].
  apply elem_of_app. by left.
Qed.

Lemma not_through_IGNORE_KEYS (options : value) (p : list step) :
  keeps_comments options = true →
  ¬ through IGNORE_KEYS p → ¬ through (ignoreKeys options) p.
Proof.
  intros Hkeep. destruct (ignoreKeys_cases options) as [[_ ->]|[Hno _]];
    [done|congruence].
Qed.

Lemma comments_not_in_IGNORE_KEYS :
  ("leadingComments" ∉ IGNORE_KEYS) ∧ ("trailingComments" ∉ IGNORE_KEYS).
Proof. split; apply (bool_decide_unpack _); by vm_compute. Qed.

(** C3: [stripMeta] deletes [__clone], [start], [end], [raw], [rawValue],
    [loc], [tokens], [parenthesized] and [parenStart] from every object of
    the tree, whatever the object is: in the tree it returns, no object at
    any path has one of the nine.  It deletes [leadingComments] and
    [trailingComments] from every object exactly when
    [options && options.comments] is falsy; when it is truthy, every object
    of the input outside the deleted fields is still there and has the two
    comment fields it had, stripped in turn. *)
Theorem stripMeta_deletes_excluded_fields (node options stripped : value) :
  stripMeta node options = mret stripped →
  (∀ p m', lookup_path p stripped = Some (VObj m') →
     (m' !! "__clone" = None ∧ m' !! "start" = None ∧ m' !! "end" = None ∧
      m' !! "raw" = None ∧ m' !! "rawValue" = None ∧ m' !! "loc" = None ∧
      m' !! "tokens" = None ∧ m' !! "parenthesized" = None ∧
      m' !! "parenStart" = None) ∧
     (keeps_comments options = false →
        m' !! "leadingComments" = None ∧ m' !! "trailingComments" = None)) ∧
  (keeps_comments options = true →
     ∀ p m, lookup_path p node = Some (VObj m) → ¬ through IGNORE_KEYS p →
       ∃ m', lookup_path p stripped = Some (VObj m') ∧
         m' !! "leadingComments"
           = stripMeta_node options <$> m !! "leadingComments" ∧
         m' !! "trailingComments"
           = stripMeta_node options <$> m !! "trailingComments").
Proof.
  intros ->%stripMeta_returns. split.
  - intros p m' Hat.
    destruct (through_b (ignoreKeys options) p) eqn:Hthrough.
    { apply through_b_spec in Hthrough.
      by rewrite lookup_path_stripped_through in Hat. }
    assert (¬ through (ignoreKeys options) p) as Hnot.
    { rewrite <- through_b_spec. congruence. }
    rewrite lookup_path_stripped in Hat by done.
    destruct (lookup_path p node) as [v|]; [|done].
    injection Hat as Hv.
    apply stripMeta_node_to_object in Hv as (m & -> & ->).
    assert (∀ k, k ∈ ignoreKeys options →
                 (strip_child options
                    <$> delete_keys (ignoreKeys options) m) !! k = None)
      as Hgone.
    { intros k Hk. by rewrite lookup_fmap, lookup_delete_keys, decide_True. }
    split.
    + repeat split; apply Hgone, IGNORE_KEYS_ignored;
        apply (bool_decide_unpack _); by vm_compute.
    + intros Hno.
      destruct (ignoreKeys_cases options) as [[Hyes _]|[_ Hkeys]];
        [congruence|].
      split; apply Hgone; rewrite Hkeys;
        apply (bool_decide_unpack _); by vm_compute.
  - intros Hkeep p m Hat Hnot.
    apply (not_through_IGNORE_KEYS options) in Hnot; [|done].
    rewrite lookup_path_stripped, Hat by done.
    exists (strip_child options <$> delete_keys (ignoreKeys options) m).
    split; [exact (f_equal Some (stripMeta_node_object options m))|].
    destruct (ignoreKeys_cases options) as [[_ Hkeys]|[Hno _]];
      [|congruence].
    rewrite !lookup_fmap, !lookup_delete_keys, Hkeys.
    destruct comments_not_in_IGNORE_KEYS as [Hleading Htrailing].
    split.
    + rewrite decide_False by done.
      destruct (m !! "leadingComments"); simpl; [|done].
      by rewrite strip_child_eq.
    + rewrite decide_False by done.
      destruct (m !! "trailingComments"); simpl; [|done].
      by rewrite strip_child_eq.
Qed.

(** C5: the loop of [stripMeta] recurses into a property value only when it
    is an array or an object ([null] and the other scalars fail the test);
    a property whose value is a scalar and whose name is not deleted keeps
    its value, in the node itself and at every path of the tree that does
    not go through a deleted field. *)
Theorem stripMeta_leaves_scalars (node options stripped : value) :
  stripMeta node options = mret stripped →
  (∀ v, is_object v = true ↔ (∃ l, v = VArr l) ∨ (∃ m, v = VObj m)) ∧
  (∀ m, stripMeta_node options (VObj m)
        = VObj ((λ c, if is_object c then stripMeta_node options c else c)
                  <$> delete_keys (ignoreKeys options) m)) ∧
  (∀ m m' k v,
     stripMeta_node options (VObj m) = VObj m' →
     m !! k = Some v → is_object v = false → k ∉ ignoreKeys options →
     m' !! k = Some v) ∧
  (∀ p v,
     lookup_path p node = Some v → is_object v = false →
     ¬ through (ignoreKeys options) p →
     lookup_path p stripped = Some v).
Proof.
  intros ->%stripMeta_returns. split; [exact is_object_spec|].
  split; [exact (stripMeta_node_object options)|]. split.
  - intros m m' k v. rewrite stripMeta_node_object. intros [= <-] Hk Hv Hnot.
    rewrite lookup_fmap, lookup_delete_keys, decide_False, Hk by done.
    simpl. unfold strip_child. by rewrite Hv.
  - intros p v Hat Hv Hnot.
    rewrite lookup_path_stripped, Hat by done. simpl.
    by rewrite stripMeta_node_scalar.
Qed.

(** C9: [stripMeta] is a function of its arguments, and stripping twice
    with the same options is stripping once: running it on its own result
    gives that result again (and when the first run throws, so does the
    composition, with the same error). *)
Theorem stripMeta_idempotent (node options : value) :
  (stripMeta node options ≫= λ stripped, stripMeta stripped options)
  = stripMeta node options
  ∧ (∀ stripped,
       stripMeta node options = mret stripped →
       stripMeta stripped options = mret stripped).
Proof.
  assert (∀ stripped,
            stripMeta node options = mret stripped →
            stripMeta stripped options = mret stripped) as Hagain.
  { intros stripped Hrun.
    pose proof (stripMeta_returns _ _ _ Hrun) as ->.
    pose proof (stripMeta_node_idempotent options node) as Hidem.
    destruct node as [| | | | |l|m]; try done;
      unfold stripMeta; by rewrite Hidem. }
  split; [|done].
  assert (node = VUndefined ∨ node = VNull
          ∨ stripMeta node options = mret (stripMeta_node options node))
    as [->|[->|Hrun]] by (destruct node; auto); [done|done|].
  rewrite Hrun. unfold mbind, M_bind. cbn [outcome console mret M_ret].
  by rewrite (Hagain _ Hrun).
Qed.

(** ** Strings: prefixes, substrings and the scan *)

Lemma get_Some_lt (s : string) (i : nat) :
  i < String.length s → ∃ c, String.get i s = Some c.
Proof.
  revert i. induction s as [|a s IH]; intros i Hi; simpl in *; [lia|].
  destruct i as [|i]; [eauto|]. apply IH. lia.
Qed.

Lemma charAt_eq_get (left right : string) (i : nat) :
  i < String.length left → i < String.length right →
  charAt left i = charAt right i ↔ String.get i left = String.get i right.
Proof.
  intros [a Ha]%get_Some_lt [b Hb]%get_Some_lt.
  unfold charAt. rewrite Ha, Hb. split; congruence.
Qed.

Lemma length_substring_0 (s : string) (m : nat) :
  String.length (String.substring 0 m s) = Nat.min m (String.length s).
Proof.
  revert s. induction m as [|m IH]; intros [|a s]; simpl; try done.
  by rewrite IH.
Qed.

Lemma append_cons (a : ascii) (s1 s2 : string) :
  String a s1 +:+ s2 = String a (s1 +:+ s2).
Proof. done. Qed.

Lemma substring_0_split (s : string) (m : nat) :
  ∃ tail, s = String.substring 0 m s +:+ tail.
Proof.
  revert s. induction m as [|m IH]; intros [|a s]; simpl.
  - by exists "".
  - by exists (String a s).
  - by exists "".
  - destruct (IH s) as [tail Htail]. exists tail.
    rewrite append_cons. by f_equal.
Qed.

Lemma substring_after_prefix (p rest : string) (m : nat) :
  String.substring (String.length p) m (p +:+ rest)
  = String.substring 0 m rest.
Proof.
  induction p as [|a p IH]; [done|]. rewrite append_cons. simpl. apply IH.
Qed.

Lemma length_append (s1 s2 : string) :
  String.length (s1 +:+ s2) = String.length s1 + String.length s2.
Proof.
  induction s1 as [|a s1 IH]; [done|]. rewrite append_cons. simpl.
  by rewrite IH.
Qed.

(** A string that agrees with [s] on all its positions is a prefix of
    [s]. *)
Lemma prefix_by_get (p s : string) :
  String.length p ≤ String.length s →
  (∀ j, j < String.length p → String.get j p = String.get j s) →
  ∃ rest, s = p +:+ rest.
Proof.
  revert s. induction p as [|a p IH]; intros s Hlen Hget.
  - by exists s.
  - destruct s as [|b s]; simpl in Hlen; [lia|].
    pose proof (Hget 0 ltac:(simpl; lia)) as H0. simpl in H0.
    injection H0 as <-.
    destruct (IH s) as [rest ->]; [lia| |by exists rest].
    intros j Hj. apply (Hget (S j)). simpl. lia.
Qed.

Lemma get_prefix (p rest : string) (j : nat) :
  j < String.length p → String.get j (p +:+ rest) = String.get j p.
Proof. intros Hj. symmetry. by apply append_correct1. Qed.

(** The state of the scan when the loop ends: [n] characters agree, and the
    loop stopped at the end of a string or at a mismatch. *)
Lemma firstCommonSubstring_loop_spec (fuel i : nat) (left right : string) :
  String.length left ≤ fuel + i →
  i ≤ String.length left → i ≤ String.length right →
  (∀ j, j < i → String.get j left = String.get j right) →
  let n := firstCommonSubstring_loop fuel i left right in
  n ≤ String.length left ∧ n ≤ String.length right ∧
  (∀ j, j < n → String.get j left = String.get j right) ∧
  (n < String.length left → n < String.length right →
   String.get n left ≠ String.get n right).
Proof.
  revert i. induction fuel as [|fuel IH]; intros i Hfuel Hl Hr Hagree; simpl.
  - repeat split; try done. lia.
  - destruct (i <? String.length left) eqn:Hil;
      [apply Nat.ltb_lt in Hil|apply Nat.ltb_ge in Hil]; simpl;
      [destruct (i <? String.length right) eqn:Hir;
         [apply Nat.ltb_lt in Hir|apply Nat.ltb_ge in Hir]; simpl|];
      [|repeat split; try done; lia..].
    case_bool_decide as Hchar; simpl.
    + apply charAt_eq_get in Hchar; [|done..].
      apply IH; [lia..|].
      intros j Hj. destruct (decide (j = i)) as [->|]; [done|].
      apply Hagree. lia.
    + repeat split; try done. intros _ _ Hget. apply Hchar.
      by apply charAt_eq_get.
Qed.

(** The loop ends by its own condition: with [left.length - i] iterations
    allowed, one more changes nothing. *)
Lemma firstCommonSubstring_loop_fuel (fuel i : nat) (left right : string) :
  String.length left ≤ fuel + i →
  firstCommonSubstring_loop (S fuel) i left right
  = firstCommonSubstring_loop fuel i left right.
Proof.
  revert i. induction fuel as [|fuel IH]; intros i Hfuel.
  - simpl. destruct (i <? String.length left) eqn:Hil; [|done].
    apply Nat.ltb_lt in Hil. lia.
  - change (firstCommonSubstring_loop (S (S fuel)) i left right)
      with (if (i <? String.length left) && (i <? String.length right)
            then if negb (bool_decide (charAt left i = charAt right i))
                 then i
                 else firstCommonSubstring_loop (S fuel) (S i) left right
            else i).
    rewrite IH by lia. done.
Qed.

Lemma firstCommonSubstring_length (left right : string) :
  String.length (firstCommonSubstring left right)
  = firstCommonSubstring_loop (String.length left) 0 left right.
Proof.
  unfold firstCommonSubstring, substr. rewrite length_substring_0.
  destruct (firstCommonSubstring_loop_spec (String.length left) 0 left right)
    as (Hn & _); [lia..| |lia].
  intros j Hj. lia.
Qed.

Lemma firstCommonSubstring_get (left right : string) (j : nat) :
  j < String.length (firstCommonSubstring left right) →
  String.get j (firstCommonSubstring left right) = String.get j left.
Proof.
  intros Hj. unfold firstCommonSubstring, substr.
  rewrite substring_correct1; [by rewrite Nat.add_0_r|].
  by rewrite firstCommonSubstring_length in Hj.
Qed.

Lemma firstCommonSubstring_prefix_left (left right : string) :
  ∃ rest, left = firstCommonSubstring left right +:+ rest.
Proof. unfold firstCommonSubstring, substr. apply substring_0_split. Qed.

Lemma firstCommonSubstring_spec (left right : string) :
  let n := String.length (firstCommonSubstring left right) in
  n ≤ String.length left ∧ n ≤ String.length right ∧
  (∀ j, j < n → String.get j left = String.get j right) ∧
  (n < String.length left → n < String.length right →
   String.get n left ≠ String.get n right).
Proof.
  rewrite firstCommonSubstring_length.
  apply firstCommonSubstring_loop_spec; [lia..|]. intros j Hj. lia.
Qed.

Lemma firstCommonSubstring_prefix_right (left right : string) :
  ∃ rest, right = firstCommonSubstring left right +:+ rest.
Proof.
  destruct (firstCommonSubstring_spec left right) as (_ & Hr & Hagree & _).
  apply prefix_by_get; [done|]. intros j Hj.
  rewrite firstCommonSubstring_get by done. by apply Hagree.
Qed.

Lemma firstCommonSubstring_longest (left right p : string) :
  (∃ rest, left = p +:+ rest) → (∃ rest, right = p +:+ rest) →
  ∃ rest, firstCommonSubstring left right = p +:+ rest.
Proof.
  intros [l' Hl] [r' Hr].
  destruct (firstCommonSubstring_spec left right)
    as (Hnl & Hnr & Hagree & Hstop).
  pose proof (f_equal String.length Hl) as Hlenl.
  pose proof (f_equal String.length Hr) as Hlenr.
  rewrite length_append in Hlenl, Hlenr.
  pose proof (firstCommonSubstring_get left right) as Hget.
  set (c := firstCommonSubstring left right) in *.
  assert (String.length p ≤ String.length c) as Hle.
  { apply Nat.nlt_ge. intros Hlt. apply Hstop; [lia..|].
    rewrite Hl, Hr. by rewrite !get_prefix. }
  apply prefix_by_get; [done|]. intros j Hj.
  rewrite Hget by lia. rewrite Hl. by rewrite get_prefix.
Qed.

Lemma firstCommonSubstring_mismatch (left right : string) (a b : ascii)
    (l' r' : string) :
  left = firstCommonSubstring left right +:+ String a l' →
  right = firstCommonSubstring left right +:+ String b r' →
  a ≠ b.
Proof.
  intros Hl Hr.
  destruct (firstCommonSubstring_spec left right) as (_ & _ & _ & Hstop).
  pose proof (f_equal String.length Hl) as Hlenl.
  pose proof (f_equal String.length Hr) as Hlenr.
  rewrite length_append in Hlenl, Hlenr. simpl in Hlenl, Hlenr.
  set (c := firstCommonSubstring left right) in *.
  intros <-. apply Hstop; [lia..|].
  pose proof (append_correct2 c (String a l') 0) as Hgl.
  pose proof (append_correct2 c (String a r') 0) as Hgr.
  rewrite <- Hl in Hgl. rewrite <- Hr in Hgr. simpl in Hgl, Hgr.
  congruence.
Qed.

(** The excerpt taken from a rendering at the end of a prefix of it. *)
Lemma excerpt_spec (common rest : string) :
  let excerpt :=
    substr (common +:+ rest) (String.length common) excerptLength in
  String.length excerpt ≤ excerptLength
  ∧ ∃ tail, common +:+ rest = common +:+ excerpt +:+ tail.
Proof.
  unfold substr. rewrite substring_after_prefix. split.
  - rewrite length_substring_0. lia.
  - destruct (substring_0_split rest excerptLength) as [tail Htail].
    exists tail. by rewrite <- Htail.
Qed.

(** ** The monad: returning, throwing and sequencing *)

Lemma M_eta {A} (m : M A) : MkM (console m) (outcome m) = m.
Proof. by destruct m. Qed.

Lemma bind_mret {A B} (a : A) (f : A → M B) : mret a ≫= f = f a.
Proof. unfold mbind, M_bind. simpl. apply M_eta. Qed.

Lemma bind_throw {A B} (e : js_error) (f : A → M B) :
  throw e ≫= f = throw e.
Proof. done. Qed.

Lemma bind_assoc {A B C} (m : M A) (f : A → M B) (g : B → M C) :
  (m ≫= f) ≫= g = m ≫= (λ a, f a ≫= g).
Proof.
  unfold mbind, M_bind. destruct m as [out [a|e]]; simpl; [|done].
  destruct (f a) as [out' [b|e]]; simpl; [|done].
  by rewrite app_assoc.
Qed.

Lemma parse_unfold (code : string) :
  parse code
  = MkM [] (babelParser_parse code (ParserOptions "module" ["flow"; "jsx"])).
Proof. done. Qed.

Lemma parse_cases (code : string) :
  (∃ ast, parse code = mret ast) ∨ (∃ e, parse code = throw e).
Proof.
  rewrite parse_unfold.
  destruct (babelParser_parse _ _) as [ast|e]; [left|right]; eauto.
Qed.

(** The [catch] block, once both sources are rendered: it writes the
    report to the console and throws an [Error] with the report as its
    message and the stack of the error it caught. *)
Lemma report_mismatch_unfold (expected actual : string)
    (expectedTree actualTree : value) (e : js_error)
    (expectedFormattedCode actualFormattedCode : string) :
  prettyPrint expected = mret expectedFormattedCode →
  prettyPrint actual = mret actualFormattedCode →
  report_mismatch expected actual expectedTree actualTree e
  = let commonStr :=
      firstCommonSubstring expectedFormattedCode actualFormattedCode in
    let message :=
      errMessage expectedFormattedCode actualFormattedCode commonStr
        (substr expectedFormattedCode (String.length commonStr)
           excerptLength)
        (substr actualFormattedCode (String.length commonStr) excerptLength)
        (jsonDiff_diffString actualTree expectedTree) in
    MkM [message] (Throw (JsError "Error" message (err_stack e))).
Proof.
  intros He Ha. unfold report_mismatch.
  rewrite He, bind_mret, Ha, bind_mret. done.
Qed.

(** C6: [firstCommonSubstring] returns the longest common prefix of its two
    arguments, and the scan stops at the first position where they differ;
    the two excerpts of the report start in each rendering where that
    prefix ends, and are at most 60 characters long. *)
Theorem firstCommonSubstring_and_excerpts (left right : string) :
  (∃ rest, left = firstCommonSubstring left right +:+ rest) ∧
  (∃ rest, right = firstCommonSubstring left right +:+ rest) ∧
  (∀ p, (∃ rest, left = p +:+ rest) → (∃ rest, right = p +:+ rest) →
        ∃ rest, firstCommonSubstring left right = p +:+ rest) ∧
  (∀ a b l' r',
     left = firstCommonSubstring left right +:+ String a l' →
     right = firstCommonSubstring left right +:+ String b r' →
     a ≠ b) ∧
  (String.length
     (substr left (String.length (firstCommonSubstring left right))
        excerptLength) ≤ 60 ∧
   String.length
     (substr right (String.length (firstCommonSubstring left right))
        excerptLength) ≤ 60 ∧
   (∃ tail, left = firstCommonSubstring left right
                   +:+ substr left
                         (String.length (firstCommonSubstring left right))
                         excerptLength
                   +:+ tail) ∧
   (∃ tail, right = firstCommonSubstring left right
                    +:+ substr right
                          (String.length (firstCommonSubstring left right))
                          excerptLength
                    +:+ tail)) ∧
  (∀ expected actual expectedTree actualTree e,
     prettyPrint expected = mret left →
     prettyPrint actual = mret right →
     report_mismatch expected actual expectedTree actualTree e
     = let message :=
         errMessage left right (firstCommonSubstring left right)
           (substr left (String.length (firstCommonSubstring left right))
              excerptLength)
           (substr right (String.length (firstCommonSubstring left right))
              excerptLength)
           (jsonDiff_diffString actualTree expectedTree) in
       MkM [message] (Throw (JsError "Error" message (err_stack e)))).
Proof.
  split; [apply firstCommonSubstring_prefix_left|].
  split; [apply firstCommonSubstring_prefix_right|].
  split; [apply firstCommonSubstring_longest|].
  split; [apply firstCommonSubstring_mismatch|].
  split.
  - destruct (firstCommonSubstring_prefix_left left right) as [l' Hl].
    destruct (firstCommonSubstring_prefix_right left right) as [r' Hr].
    pose proof (excerpt_spec (firstCommonSubstring left right) l')
      as [Hlen_l Htail_l].
    pose proof (excerpt_spec (firstCommonSubstring left right) r')
      as [Hlen_r Htail_r].
    rewrite <- Hl in Hlen_l, Htail_l. rewrite <- Hr in Hlen_r, Htail_r.
    done.
  - intros expected actual expectedTree actualTree e He Ha.
    by apply report_mismatch_unfold.
Qed.

(** ** assertSourceAstEqual *)

Lemma normalizeSourceCode_cases (source : string) :
  (∃ ast, parse source = mret ast
          ∧ normalizeSourceCode source
            = mret (trim (generate ast canonical_style source))
          ∧ prettyPrint source
            = mret (trim (generate ast (GeneratorOptions true None) source)))
  ∨ (∃ e, parse source = throw e
          ∧ normalizeSourceCode source = throw e
          ∧ prettyPrint source = throw e).
Proof.
  unfold normalizeSourceCode, prettyPrint.
  destruct (parse_cases source) as [[ast Hp]|[e Hp]]; rewrite Hp.
  - left. exists ast. by rewrite !bind_mret.
  - right. exists e. by rewrite !bind_throw.
Qed.

(** The tree compared for one side is the normalizer's. *)
Lemma compared_tree_normalize (source : string) (options : value) :
  (code ← normalizeSourceCode source;
   file ← parse code;
   program ← member file "program";
   stripMeta program options)
  = normalize source options.
Proof.
  unfold normalize.
  destruct (normalizeSourceCode_cases source)
    as [(ast & Hp & Hn & _)|(e & Hp & Hn & _)]; rewrite Hp, Hn.
  - by rewrite !bind_mret.
  - by rewrite !bind_throw.
Qed.

Lemma assertSourceAstEqual_unfold (expected actual : string)
    (options : value) :
  assertSourceAstEqual expected actual options
  = (expectedTree ← normalize expected options;
     actualTree ← normalize actual options;
     compare_trees expected actual expectedTree actualTree).
Proof.
  unfold assertSourceAstEqual. by rewrite !compared_tree_normalize.
Qed.

(** A source that was normalized can be rendered: its parse succeeded. *)
Lemma normalize_prettyPrint (source : string) (options tree : value) :
  normalize source options = mret tree →
  ∃ ast, parse source = mret ast
         ∧ prettyPrint source
           = mret (trim (generate ast (GeneratorOptions true None) source)).
Proof.
  intros Hn.
  destruct (normalizeSourceCode_cases source)
    as [(ast & Hp & _ & Hpp)|(e & Hp & _ & _)]; [eauto|].
  unfold normalize in Hn. by rewrite Hp, bind_throw in Hn.
Qed.

Lemma compare_trees_equal (expected actual : string)
    (expectedTree actualTree : value) :
  deep_equal actualTree expectedTree = true →
  compare_trees expected actual expectedTree actualTree = mret tt.
Proof.
  intros Heq. unfold compare_trees, assert_deepStrictEqual. by rewrite Heq.
Qed.

Lemma compare_trees_differ (expected actual : string)
    (expectedTree actualTree : value)
    (expectedFormattedCode actualFormattedCode : string) :
  deep_equal actualTree expectedTree = false →
  prettyPrint expected = mret expectedFormattedCode →
  prettyPrint actual = mret actualFormattedCode →
  compare_trees expected actual expectedTree actualTree
  = let message :=
      divergence_report expectedFormattedCode actualFormattedCode
        expectedTree actualTree in
    MkM [message]
      (Throw (JsError "Error" message
                (err_stack (AssertionError actualTree expectedTree)))).
Proof.
  intros Hne He Ha. unfold compare_trees, assert_deepStrictEqual.
  rewrite Hne. unfold try_catch. cbn [outcome console throw].
  by rewrite (report_mismatch_unfold _ _ _ _ _ _ _ He Ha).
Qed.

Lemma assertSourceAstEqual_trees (expected actual : string)
    (options expectedTree actualTree : value) :
  normalize expected options = mret expectedTree →
  normalize actual options = mret actualTree →
  assertSourceAstEqual expected actual options
  = compare_trees expected actual expectedTree actualTree.
Proof.
  intros He Ha. by rewrite assertSourceAstEqual_unfold, He, bind_mret, Ha,
    bind_mret.
Qed.

Lemma deep_equal_false (a b : value) : deep_equal a b = false ↔ a ≠ b.
Proof.
  rewrite <- deep_equal_eq. by destruct (deep_equal a b).
Qed.

(** C1: [assertSourceAstEqual] puts both sources through the same
    normalizer with the same options; when both normalized trees exist it
    returns exactly when [deepStrictEqual] accepts them, which is exactly
    when they are the same tree (arrays compared by length and position,
    objects by their keys and the value at each key); when they differ it
    throws an error whose message is the divergence report. *)
Theorem assertSourceAstEqual_returns_iff_equal (expected actual : string)
    (options expectedTree actualTree : value) :
  normalize expected options = mret expectedTree →
  normalize actual options = mret actualTree →
  (assertSourceAstEqual expected actual options = mret tt
   ↔ deep_equal actualTree expectedTree = true) ∧
  (deep_equal actualTree expectedTree = true
   ↔ actualTree = expectedTree) ∧
  (∀ l1 l2, deep_equal (VArr l1) (VArr l2) = true
            ↔ length l1 = length l2 ∧ ∀ i, l1 !! i = l2 !! i) ∧
  (∀ m1 m2, deep_equal (VObj m1) (VObj m2) = true
            ↔ ∀ k, m1 !! k = m2 !! k) ∧
  (actualTree ≠ expectedTree →
   ∃ expectedFormattedCode actualFormattedCode e,
     prettyPrint expected = mret expectedFormattedCode ∧
     prettyPrint actual = mret actualFormattedCode ∧
     outcome (assertSourceAstEqual expected actual options) = Throw e ∧
     err_message e
     = divergence_report expectedFormattedCode actualFormattedCode
         expectedTree actualTree).
Proof.
  intros He Ha.
  rewrite (assertSourceAstEqual_trees _ _ _ _ _ He Ha).
  destruct (normalize_prettyPrint _ _ _ He) as (ast_e & _ & Hpe).
  destruct (normalize_prettyPrint _ _ _ Ha) as (ast_a & _ & Hpa).
  split; [|split; [apply deep_equal_eq|split; [|split]]].
  - split.
    + destruct (deep_equal actualTree expectedTree) eqn:Heq; [done|].
      by rewrite (compare_trees_differ _ _ _ _ _ _ Heq Hpe Hpa).
    + apply compare_trees_equal.
  - intros l1 l2. rewrite deep_equal_eq. split.
    + by intros [= ->].
    + intros [_ Hall]. f_equal. by apply list_eq.
  - intros m1 m2. rewrite deep_equal_eq. split.
    + by intros [= ->].
    + intros Hall. f_equal. by apply map_eq.
  - intros Hne%deep_equal_false.
    rewrite (compare_trees_differ _ _ _ _ _ _ Hne Hpe Hpa).
    eexists _, _, _. repeat split; done.
Qed.

(** C7: when the trees differ, [deepStrictEqual] throws its
    [AssertionError]; what [assertSourceAstEqual] throws in the end is a
    new [Error] whose message is the divergence report (also written to
    the console) and whose stack is the stack of that [AssertionError]. *)
Theorem assertSourceAstEqual_keeps_stack (expected actual : string)
    (options expectedTree actualTree : value) :
  normalize expected options = mret expectedTree →
  normalize actual options = mret actualTree →
  actualTree ≠ expectedTree →
  assert_deepStrictEqual actualTree expectedTree
  = throw (AssertionError actualTree expectedTree)
  ∧ ∃ expectedFormattedCode actualFormattedCode,
      prettyPrint expected = mret expectedFormattedCode ∧
      prettyPrint actual = mret actualFormattedCode ∧
      assertSourceAstEqual expected actual options
      = MkM [divergence_report expectedFormattedCode actualFormattedCode
               expectedTree actualTree]
          (Throw
             (set_stack
                (new_Error
                   (divergence_report expectedFormattedCode
                      actualFormattedCode expectedTree actualTree))
                (err_stack (AssertionError actualTree expectedTree)))).
Proof.
  intros He Ha Hne%deep_equal_false.
  rewrite (assertSourceAstEqual_trees _ _ _ _ _ He Ha).
  destruct (normalize_prettyPrint _ _ _ He) as (ast_e & _ & Hpe).
  destruct (normalize_prettyPrint _ _ _ Ha) as (ast_a & _ & Hpa).
  split.
  - unfold assert_deepStrictEqual. by rewrite Hne.
  - eexists _, _. split; [done|]. split; [done|].
    by rewrite (compare_trees_differ _ _ _ _ _ _ Hne Hpe Hpa).
Qed.

(** C8: a parse error comes out of [assertSourceAstEqual] as it was
    thrown, with nothing written to the console and no report built: from
    either parse of the expected source, and, once the expected tree is
    there, from either parse of the actual source. *)
Theorem assertSourceAstEqual_parse_error (expected actual : string)
    (options : value) (e : js_error) :
  (parse expected = throw e →
   assertSourceAstEqual expected actual options = throw e) ∧
  (∀ code, normalizeSourceCode expected = mret code →
           parse code = throw e →
           assertSourceAstEqual expected actual options = throw e) ∧
  (∀ expectedTree, normalize expected options = mret expectedTree →
                   parse actual = throw e →
                   assertSourceAstEqual expected actual options = throw e) ∧
  (∀ expectedTree code,
     normalize expected options = mret expectedTree →
     normalizeSourceCode actual = mret code →
     parse code = throw e →
     assertSourceAstEqual expected actual options = throw e).
Proof.
  assert (∀ source, parse source = throw e →
                    normalize source options = throw e) as Hfirst.
  { intros source Hp. unfold normalize. by rewrite Hp, bind_throw. }
  assert (∀ source code, normalizeSourceCode source = mret code →
                         parse code = throw e →
                         normalize source options = throw e) as Hsecond.
  { intros source code Hn Hp. rewrite <- compared_tree_normalize.
    by rewrite Hn, bind_mret, Hp, bind_throw. }
  rewrite assertSourceAstEqual_unfold. repeat split.
  - intros Hp. by rewrite (Hfirst _ Hp), bind_throw.
  - intros code Hn Hp. by rewrite (Hsecond _ _ Hn Hp), bind_throw.
  - intros expectedTree He Hp.
    by rewrite He, bind_mret, (Hfirst _ Hp), bind_throw.
  - intros expectedTree code He Hn Hp.
    by rewrite He, bind_mret, (Hsecond _ _ Hn Hp), bind_throw.
Qed.

(** ** testSection *)

Lemma prefix_append (sub s : string) :
  String.prefix sub s = true ↔ ∃ after, s = sub +:+ after.
Proof.
  rewrite prefix_correct. split.
  - intros Hsub. destruct (substring_0_split s (String.length sub))
      as [tail Htail]. exists tail. by rewrite Hsub in Htail.
  - intros [after ->]. induction sub as [|a sub IH].
    + by destruct after.
    + rewrite append_cons. simpl. by rewrite IH.
Qed.

(** [s.includes(sub)] holds exactly when [sub] occurs in [s]. *)
Lemma includes_spec (s sub : string) :
  includes s sub = true ↔ ∃ before after, s = before +:+ sub +:+ after.
Proof.
  induction s as [|a s IH];
    [change (includes "" sub) with (String.prefix sub "" || false)
    |change (includes (String a s) sub)
       with (String.prefix sub (String a s) || includes s sub)];
    rewrite orb_true_iff, prefix_append.
  - split.
    + intros [[after ->]|?]; [|done]. by exists "", after.
    + intros (before & after & Hs). left. exists after.
      destruct before; [done|by rewrite append_cons in Hs].
  - rewrite IH. split.
    + intros [[after ->]|(before & after & ->)].
      * by exists "", after.
      * by exists (String a before), after.
    + intros ([|a' before] & after & Hs).
      * left. by exists after.
      * right. rewrite append_cons in Hs. injection Hs as -> ->.
        by exists before, after.
Qed.

(** C2: the callback of an entry runs [transform(input, entryOptions)] and
    dispatches on [throws], in this order: [true] passes exactly when the
    transform throws; a string passes exactly when it throws an error whose
    message contains the string; [false] passes exactly when it returns,
    whatever [output] is; with no [throws] key it passes exactly when the
    transform returns and [assertSourceAstEqual] accepts [output] and the
    result under the shared options.  [testSection] registers one such
    callback per entry, under the entry's name. *)
Theorem testSection_dispatch (testData : list (string * testInfo))
    (transform : string → value → M string) (options : value) :
  (length (testSection testData transform options) = length testData ∧
   ∀ i test info,
     testData !! i = Some (test, info) →
     testSection testData transform options !! i
     = Some (test, test_callback transform options info)) ∧
  ∀ info : testInfo,
    (ti_throws info = VBool true →
     (passes (test_callback transform options info)
      ↔ ∃ e, outcome (transform (ti_input info) (ti_options info))
             = Throw e)) ∧
    (∀ text,
       ti_throws info = VStr text →
       (passes (test_callback transform options info)
        ↔ ∃ e, outcome (transform (ti_input info) (ti_options info))
               = Throw e
               ∧ ∃ before after,
                   err_message e = before +:+ text +:+ after)) ∧
    (ti_throws info = VBool false →
     (passes (test_callback transform options info)
      ↔ ∃ code, outcome (transform (ti_input info) (ti_options info))
                = Return code) ∧
     ∀ output,
       test_callback transform options
         (TestInfo (ti_throws info) (ti_input info) output
            (ti_options info))
       = test_callback transform options info) ∧
    (ti_throws info = VUndefined →
     (passes (test_callback transform options info)
      ↔ ∃ code, outcome (transform (ti_input info) (ti_options info))
                = Return code
                ∧ outcome (assertSourceAstEqual (ti_output info) code
                             options) = Return tt)).
Proof.
  split.
  - unfold testSection. split; [apply length_fmap|].
    intros i test info Hi. by rewrite list_lookup_fmap, Hi.
  - intros info. unfold passes, test_callback.
    split; [|split; [|split]].
    + intros ->. unfold expect_toThrow.
      destruct (outcome (transform _ _)) as [code|e]; simpl.
      * split; [done|]. by intros [e [=]].
      * split; [eauto|done].
    + intros text ->. unfold expect_toThrow_text.
      destruct (outcome (transform _ _)) as [code|e]; simpl.
      * split; [done|]. by intros (e & [=] & _).
      * destruct (includes (err_message e) text) eqn:Hinc; simpl.
        -- split; [|done]. intros _. exists e. split; [done|].
           by apply includes_spec.
        -- split; [done|]. intros (e' & [= <-] & Hocc%includes_spec).
           congruence.
    + intros ->. split; [|done].
      unfold mbind, M_bind.
      destruct (outcome (transform _ _)) as [code|e]; simpl.
      * split; [eauto|done].
      * split; [done|]. by intros [code [=]].
    + intros ->. unfold expect_not_toThrow, mbind, M_bind.
      destruct (outcome (transform _ _)) as [code|e]; simpl.
      * destruct (outcome (assertSourceAstEqual _ code options))
          as [[]|e] eqn:Hassert; simpl.
        -- split; [|done]. intros _. exists code. by rewrite Hassert.
        -- split; [done|]. intros (code' & [= <-] & Hok). congruence.
      * split; [done|]. by intros (code & [=] & _).
Qed.

(** C10: the transform built by [getDefaultTransformForPlugins] reads its
    source argument only: the options [testSection] passes as second
    argument are dropped, so two entries that differ in their options only
    run the same callback. *)
Theorem getDefaultTransformForPlugins_ignores_options (plugins : plugins_t)
    (source : string) (options1 options2 : value) :
  getDefaultTransformForPlugins plugins source options1
  = getDefaultTransformForPlugins plugins source options2
  ∧ getDefaultTransformForPlugins plugins source options1
    = babel_transformSync source plugins
  ∧ ∀ shared throws_directive output,
      test_callback (getDefaultTransformForPlugins plugins) shared
        (TestInfo throws_directive source output options1)
      = test_callback (getDefaultTransformForPlugins plugins) shared
          (TestInfo throws_directive source output options2).
Proof. done. Qed.

(** ** Further properties of the module *)

(** X2: stripping keeps the shape of the tree: an object keeps exactly the
    keys that are not deleted, an array keeps its length, a scalar is
    returned as it is. *)
Theorem stripMeta_node_shape (options : value) :
  (∀ m, ∃ m',
     stripMeta_node options (VObj m) = VObj m'
     ∧ ∀ k, is_Some (m' !! k)
            ↔ is_Some (m !! k) ∧ k ∉ ignoreKeys options) ∧
  (∀ l, ∃ l',
     stripMeta_node options (VArr l) = VArr l' ∧ length l' = length l) ∧
  (∀ v, is_object v = false → stripMeta_node options v = v).
Proof.
  split; [|split].
  - intros m. eexists. split; [apply stripMeta_node_object|].
    intros k. rewrite lookup_fmap, lookup_delete_keys.
    destruct (decide (k ∈ ignoreKeys options)) as [Hk|Hk]; simpl.
    + split; [by intros [? [=]]|]. by intros [_ ?].
    + rewrite fmap_is_Some. split; [done|]. by intros [? _].
  - intros l. eexists. split; [apply stripMeta_node_array|].
    apply length_fmap.
  - apply stripMeta_node_scalar.
Qed.

(** X3: stripping with comments kept and then without is stripping
    without: the second pass deletes what the first kept. *)
Theorem stripMeta_comments_then_default (options1 options2 node : value) :
  keeps_comments options1 = true →
  keeps_comments options2 = false →
  stripMeta_node options2 (stripMeta_node options1 node)
  = stripMeta_node options2 node.
Proof.
  intros Hkeep Hdrop. apply stripMeta_node_absorbs. intros k.
  unfold ignoreKeys. rewrite Hkeep, Hdrop. intros Hk.
  apply elem_of_app. by left.
Qed.

(** X4: a source that can be normalized compares equal to itself. *)
Theorem assertSourceAstEqual_reflexive (source : string)
    (options tree : value) :
  normalize source options = mret tree →
  assertSourceAstEqual source source options = mret tt.
Proof.
  intros Hn. rewrite (assertSourceAstEqual_trees _ _ _ _ _ Hn Hn).
  apply compare_trees_equal. by apply deep_equal_eq.
Qed.

(** *** stripMeta: paths and options *)

(** X5: after stripping, a path leads to a value exactly when it led to one
    before and goes through no deleted key, and that value is the stripped
    form of the original: nothing is added, moved or renamed. *)
Theorem stripMeta_node_paths (options node : value) (p : list step) :
  lookup_path p (stripMeta_node options node)
  = if through_b (ignoreKeys options) p then None
    else stripMeta_node options <$> lookup_path p node.
Proof.
  destruct (through_b (ignoreKeys options) p) eqn:Hthrough.
  - apply lookup_path_stripped_through. by apply through_b_spec.
  - apply lookup_path_stripped. rewrite <- through_b_spec. congruence.
Qed.

Lemma stripMeta_node_ext (options1 options2 node : value) :
  ignoreKeys options1 = ignoreKeys options2 →
  stripMeta_node options1 node = stripMeta_node options2 node.
Proof.
  intros Hkeys.
  induction node as [| | | | |l IH|m IH] using value_tree_ind; try done.
  - rewrite !stripMeta_node_array. f_equal. apply list_fmap_ext.
    intros i x Hx. rewrite !strip_child_eq.
    eapply Forall_lookup_1 in IH; [|done]. done.
  - rewrite !stripMeta_node_object, Hkeys. f_equal. apply map_eq. intros k.
    rewrite !lookup_fmap.
    destruct (delete_keys (ignoreKeys options2) m !! k) as [x|] eqn:Hx;
      simpl; [|done].
    rewrite !strip_child_eq. f_equal. apply (IH k x).
    rewrite lookup_delete_keys in Hx. by case_decide.
Qed.

(** X6: [stripMeta] reads nothing of [options] but whether
    [options && options.comments] is truthy: two options that agree on it
    give the same result, tree or error. *)
Theorem stripMeta_reads_only_comments (options1 options2 node : value) :
  keeps_comments options1 = keeps_comments options2 →
  stripMeta node options1 = stripMeta node options2.
Proof.
  intros Hkeep.
  assert (stripMeta_node options1 node = stripMeta_node options2 node)
    as Hnode.
  { apply stripMeta_node_ext. unfold ignoreKeys. by rewrite Hkeep. }
  unfold stripMeta. by rewrite Hnode.
Qed.

(** *** assertSourceAstEqual: when it returns, what it throws *)

Lemma member_cases (v : value) (key : string) :
  (member v key = mret (get_field v key) ∧ v ≠ VUndefined ∧ v ≠ VNull)
  ∨ member v key = throw (TypeError key).
Proof. destruct v; auto. Qed.

Lemma stripMeta_cases (node options : value) :
  (stripMeta node options = mret (stripMeta_node options node)
   ∧ node ≠ VUndefined ∧ node ≠ VNull)
  ∨ stripMeta node options = throw (TypeError "delete node[key]").
Proof. destruct node; auto. Qed.

Lemma parse_throw_inv (code : string) (e : js_error) :
  parse code = throw e →
  babelParser_parse code (ParserOptions "module" ["flow"; "jsx"]) = Throw e.
Proof. rewrite parse_unfold. by intros [= ->]. Qed.

(** How a normalization ends: with the stripped program of the second
    parse, the same program whatever the options, or with the error of a
    parse, or with the engine's [TypeError]. *)
Lemma normalize_outcome (source : string) (options : value) :
  (∃ program,
     program ≠ VUndefined ∧ program ≠ VNull ∧
     ∀ options', normalize source options'
                 = mret (stripMeta_node options' program))
  ∨ (∃ e, (∀ options', normalize source options' = throw e)
          ∧ ((∃ code, babelParser_parse code
                        (ParserOptions "module" ["flow"; "jsx"]) = Throw e)
             ∨ ∃ what, e = TypeError what)).
Proof.
  destruct (normalizeSourceCode_cases source)
    as [(ast & _ & Hcode & _)|(e & Hfirst & Hcode & _)].
  2:{ right. exists e. split.
      - intros options'.
        by rewrite <- compared_tree_normalize, Hcode, bind_throw.
      - left. exists source. by apply parse_throw_inv. }
  set (canonical := trim (generate ast canonical_style source)) in *.
  destruct (parse_cases canonical) as [[file Hsecond]|[e Hsecond]].
  2:{ right. exists e. split.
      - intros options'.
        by rewrite <- compared_tree_normalize, Hcode, bind_mret, Hsecond,
          bind_throw.
      - left. exists canonical. by apply parse_throw_inv. }
  assert (∀ options' : value,
            normalize source options'
            = (program ← member file "program";
               stripMeta program options')) as Hrun.
  { intros options'.
    by rewrite <- compared_tree_normalize, Hcode, bind_mret, Hsecond,
      bind_mret. }
  destruct (member_cases file "program") as [(Hmember & _ & _)|Hmember].
  2:{ right. exists (TypeError "program"). split; [|right; eauto].
      intros options'. by rewrite Hrun, Hmember, bind_throw. }
  destruct (stripMeta_cases (get_field file "program") options)
    as [(_ & Hu & Hn)|Hstrip].
  - left. exists (get_field file "program"). split; [done|]. split; [done|].
    intros options'. rewrite Hrun, Hmember, bind_mret.
    by destruct (get_field file "program").
  - right. exists (TypeError "delete node[key]"). split; [|right; eauto].
    intros options'. rewrite Hrun, Hmember, bind_mret.
    by destruct (get_field file "program").
Qed.

Lemma normalize_cases (source : string) (options : value) :
  (∃ tree, normalize source options = mret tree)
  ∨ (∃ e, normalize source options = throw e).
Proof.
  destruct (normalize_outcome source options)
    as [(program & _ & _ & Hrun)|(e & Hrun & _)]; [left|right]; eauto.
Qed.

(** [assertSourceAstEqual] returns exactly when both sources normalize, to
    one and the same tree. *)
Lemma assertSourceAstEqual_returns_iff (expected actual : string)
    (options : value) :
  outcome (assertSourceAstEqual expected actual options) = Return tt
  ↔ ∃ tree, normalize expected options = mret tree
            ∧ normalize actual options = mret tree.
Proof.
  destruct (normalize_cases expected options) as [[te He]|[e He]].
  2:{ rewrite assertSourceAstEqual_unfold, He, bind_throw. split; [done|].
      by intros (tree & [=] & _). }
  destruct (normalize_cases actual options) as [[ta Ha]|[e Ha]].
  2:{ rewrite assertSourceAstEqual_unfold, He, bind_mret, Ha, bind_throw.
      split; [done|]. by intros (tree & _ & [=]). }
  rewrite (assertSourceAstEqual_trees _ _ _ _ _ He Ha).
  destruct (normalize_prettyPrint _ _ _ He) as (ast_e & _ & Hpe).
  destruct (normalize_prettyPrint _ _ _ Ha) as (ast_a & _ & Hpa).
  destruct (deep_equal ta te) eqn:Heq.
  - rewrite compare_trees_equal by done. split; [intros _|done].
    apply deep_equal_eq in Heq as ->. eauto.
  - rewrite (compare_trees_differ _ _ _ _ _ _ Heq Hpe Hpa).
    split; [done|]. intros (tree & Hte & Hta).
    rewrite He in Hte. rewrite Ha in Hta.
    injection Hte as <-. injection Hta as <-.
    apply deep_equal_false in Heq. done.
Qed.

Lemma assertSourceAstEqual_returns_eq (expected actual : string)
    (options : value) :
  outcome (assertSourceAstEqual expected actual options) = Return tt
  ↔ assertSourceAstEqual expected actual options = mret tt.
Proof.
  split; [|by intros ->].
  intros (tree & He & Ha)%assertSourceAstEqual_returns_iff.
  rewrite (assertSourceAstEqual_trees _ _ _ _ _ He Ha).
  apply compare_trees_equal. by apply deep_equal_eq.
Qed.



Lemma normalize_console (source : string) (options : value) :
  console (normalize source options) = [].
Proof.
  by destruct (normalize_cases source options) as [[tree ->]|[e ->]].
Qed.

(** X7: [assertSourceAstEqual] writes to the console exactly when the two
    normalized trees exist and differ, and then one line, the message of
    the [Error] it throws: a run that returns, or that throws a parse error
    or a [TypeError], writes nothing. *)
Theorem assertSourceAstEqual_console (expected actual : string)
    (options : value) :
  (console (assertSourceAstEqual expected actual options) = []
   ∨ ∃ e, outcome (assertSourceAstEqual expected actual options) = Throw e
          ∧ err_name e = "Error"
          ∧ console (assertSourceAstEqual expected actual options)
            = [err_message e])
  ∧ (console (assertSourceAstEqual expected actual options) ≠ []
     ↔ ∃ expectedTree actualTree,
         normalize expected options = mret expectedTree ∧
         normalize actual options = mret actualTree ∧
         actualTree ≠ expectedTree).
Proof.
  destruct (normalize_cases expected options) as [[te He]|[e He]].
  2:{ rewrite assertSourceAstEqual_unfold, He, bind_throw.
      split; [by left|]. split; [done|]. by intros (? & ? & [=] & _). }
  destruct (normalize_cases actual options) as [[ta Ha]|[e Ha]].
  2:{ rewrite assertSourceAstEqual_unfold, He, bind_mret, Ha, bind_throw.
      split; [by left|]. split; [done|]. by intros (? & ? & _ & [=] & _). }
  rewrite (assertSourceAstEqual_trees _ _ _ _ _ He Ha).
  destruct (normalize_prettyPrint _ _ _ He) as (ast_e & _ & Hpe).
  destruct (normalize_prettyPrint _ _ _ Ha) as (ast_a & _ & Hpa).
  destruct (deep_equal ta te) eqn:Heq.
  - rewrite compare_trees_equal by done.
    split; [by left|]. split; [done|].
    intros (te' & ta' & Hte & Hta & Hne).
    rewrite He in Hte. rewrite Ha in Hta.
    injection Hte as <-. injection Hta as <-.
    by apply deep_equal_eq in Heq.
  - rewrite (compare_trees_differ _ _ _ _ _ _ Heq Hpe Hpa).
    apply deep_equal_false in Heq. split.
    + right. eexists. repeat split; done.
    + split; [|done]. intros _. eauto.
Qed.

(** X8: the order of the two sources does not matter to the verdict:
    [assertSourceAstEqual(a, b, options)] returns exactly when
    [assertSourceAstEqual(b, a, options)] does. *)
Theorem assertSourceAstEqual_symmetric (expected actual : string)
    (options : value) :
  assertSourceAstEqual expected actual options = mret tt
  ↔ assertSourceAstEqual actual expected options = mret tt.
Proof.
  rewrite <- !assertSourceAstEqual_returns_eq,
    !assertSourceAstEqual_returns_iff.
  split; intros (tree & H1 & H2); eauto.
Qed.

(** X9: the verdict is transitive: when [a] compares equal to [b] and [b]
    to [c] under the same options, [a] compares equal to [c]. *)
Theorem assertSourceAstEqual_transitive (a b c : string) (options : value) :
  assertSourceAstEqual a b options = mret tt →
  assertSourceAstEqual b c options = mret tt →
  assertSourceAstEqual a c options = mret tt.
Proof.
  rewrite <- !assertSourceAstEqual_returns_eq,
    !assertSourceAstEqual_returns_iff.
  intros (tree & Ha & Hb) (tree' & Hb' & Hc).
  rewrite Hb in Hb'. injection Hb' as <-. eauto.
Qed.

(** X10: comparing comments only adds requirements: two sources that
    compare equal with [options.comments] set compare equal under any
    options. *)
Theorem assertSourceAstEqual_without_comments (expected actual : string)
    (options options' : value) :
  keeps_comments options = true →
  assertSourceAstEqual expected actual options = mret tt →
  assertSourceAstEqual expected actual options' = mret tt.
Proof.
  intros Hkeep.
  rewrite <- !assertSourceAstEqual_returns_eq,
    !assertSourceAstEqual_returns_iff.
  intros (tree & He & Ha).
  destruct (normalize_outcome expected options)
    as [(pe & _ & _ & Hpe)|(e & Hthrow & _)];
    [|by rewrite Hthrow in He].
  destruct (normalize_outcome actual options)
    as [(pa & _ & _ & Hpa)|(e & Hthrow & _)];
    [|by rewrite Hthrow in Ha].
  rewrite Hpe in He. rewrite Hpa in Ha.
  injection He as He. injection Ha as Ha.
  exists (stripMeta_node options' pe). split; [apply Hpe|].
  assert (∀ k, k ∈ ignoreKeys options → k ∈ ignoreKeys options') as Hsub.
  { intros k. destruct (ignoreKeys_cases options) as [[_ ->]|[Hno _]];
      [apply IGNORE_KEYS_ignored|congruence]. }
  rewrite Hpa.
  rewrite <- (stripMeta_node_absorbs options options' pa) by done.
  rewrite <- (stripMeta_node_absorbs options options' pe) by done.
  congruence.
Qed.

(** X11: [assertSourceAstEqual] reads nothing of [options] but whether
    [options && options.comments] is truthy: two options that agree on it
    give the same run, verdict, error and console line alike. *)
Theorem assertSourceAstEqual_reads_only_comments (expected actual : string)
    (options1 options2 : value) :
  keeps_comments options1 = keeps_comments options2 →
  assertSourceAstEqual expected actual options1
  = assertSourceAstEqual expected actual options2.
Proof.
  intros Hkeep.
  assert (∀ source, normalize source options1 = normalize source options2)
    as Hsame.
  { intros source.
    destruct (normalize_outcome source options1)
      as [(program & _ & _ & Hrun)|(e & Hthrow & _)].
    - rewrite !Hrun.
      rewrite (stripMeta_node_ext options1 options2); [done|].
      unfold ignoreKeys. by rewrite Hkeep.
    - by rewrite !Hthrow. }
  by rewrite !assertSourceAstEqual_unfold, !Hsame.
Qed.

(** X12: only the canonical text of a source is compared: two sources whose
    re-printings are the same text compare equal whenever that text
    normalizes. *)
Theorem assertSourceAstEqual_same_canonical_text (expected actual : string)
    (options : value) (code : string) (tree : value) :
  normalizeSourceCode expected = mret code →
  normalizeSourceCode actual = mret code →
  normalize expected options = mret tree →
  assertSourceAstEqual expected actual options = mret tt.
Proof.
  intros He Ha Hn.
  apply assertSourceAstEqual_returns_eq, assertSourceAstEqual_returns_iff.
  exists tree. split; [done|].
  rewrite <- Hn, <- !compared_tree_normalize. by rewrite He, Ha.
Qed.

(** X13: the errors of [assertSourceAstEqual]: an error the parser threw,
    as it threw it; the engine's [TypeError], when a parsed file has no
    program to strip; or its own [Error], carrying the stack of the
    [AssertionError] of the two trees.  It throws nothing else. *)
Theorem assertSourceAstEqual_errors (expected actual : string)
    (options : value) (e : js_error) :
  outcome (assertSourceAstEqual expected actual options) = Throw e →
  (∃ code, babelParser_parse code (ParserOptions "module" ["flow"; "jsx"])
           = Throw e)
  ∨ (∃ what, e = TypeError what)
  ∨ (err_name e = "Error"
     ∧ ∃ expectedTree actualTree,
         normalize expected options = mret expectedTree ∧
         normalize actual options = mret actualTree ∧
         actualTree ≠ expectedTree ∧
         err_stack e = err_stack (AssertionError actualTree expectedTree)).
Proof.
  rewrite assertSourceAstEqual_unfold.
  destruct (normalize_outcome expected options)
    as [(pe & _ & _ & He)|(e' & He & Hkind)].
  2:{ rewrite He, bind_throw. intros [= <-].
      destruct Hkind; [by left|by right; left]. }
  destruct (normalize_outcome actual options)
    as [(pa & _ & _ & Ha)|(e' & Ha & Hkind)].
  2:{ rewrite He, bind_mret, Ha, bind_throw. intros [= <-].
      destruct Hkind; [by left|by right; left]. }
  rewrite He, bind_mret, Ha, bind_mret.
  destruct (normalize_prettyPrint _ _ _ (He options)) as (ast_e & _ & Hpe).
  destruct (normalize_prettyPrint _ _ _ (Ha options)) as (ast_a & _ & Hpa).
  destruct (deep_equal (stripMeta_node options pa)
              (stripMeta_node options pe)) eqn:Heq.
  - by rewrite compare_trees_equal.
  - rewrite (compare_trees_differ _ _ _ _ _ _ Heq Hpe Hpa).
    intros [= <-]. right; right. split; [done|].
    apply deep_equal_false in Heq. eauto 10.
Qed.

(** *** firstCommonSubstring and the excerpts: algebra and edges *)

Lemma length_zero_empty (s : string) : String.length s = 0 → s = "".
Proof. by destruct s. Qed.

Lemma append_empty_r (s : string) : s +:+ "" = s.
Proof.
  induction s as [|a s IH]; [done|]. rewrite append_cons. by rewrite IH.
Qed.

Lemma prefix_antisymmetric (s1 s2 r1 r2 : string) :
  s1 = s2 +:+ r1 → s2 = s1 +:+ r2 → s1 = s2.
Proof.
  intros H1 H2.
  pose proof (f_equal String.length H1) as Hlen1.
  pose proof (f_equal String.length H2) as Hlen2.
  rewrite length_append in Hlen1, Hlen2.
  assert (r1 = "") as -> by (apply length_zero_empty; lia).
  by rewrite append_empty_r in H1.
Qed.

(** X14: [firstCommonSubstring] does not depend on the order of its
    arguments, although it cuts its result out of the first, and its result
    is no longer than either. *)
Theorem firstCommonSubstring_symmetric (left right : string) :
  firstCommonSubstring left right = firstCommonSubstring right left
  ∧ String.length (firstCommonSubstring left right) ≤ String.length left
  ∧ String.length (firstCommonSubstring left right) ≤ String.length right.
Proof.
  split.
  - destruct (firstCommonSubstring_longest left right
                (firstCommonSubstring right left)) as [r1 H1];
      [apply firstCommonSubstring_prefix_right
      |apply firstCommonSubstring_prefix_left|].
    destruct (firstCommonSubstring_longest right left
                (firstCommonSubstring left right)) as [r2 H2];
      [apply firstCommonSubstring_prefix_right
      |apply firstCommonSubstring_prefix_left|].
    by apply (prefix_antisymmetric _ _ r1 r2).
  - destruct (firstCommonSubstring_spec left right) as (Hl & Hr & _). done.
Qed.

Lemma firstCommonSubstring_of_prefix (left right : string) :
  (∃ rest, right = left +:+ rest) → firstCommonSubstring left right = left.
Proof.
  intros Hprefix.
  destruct (firstCommonSubstring_longest left right left) as [r1 H1];
    [by exists ""; rewrite append_empty_r|done|].
  destruct (firstCommonSubstring_prefix_left left right) as [r2 H2].
  by apply (prefix_antisymmetric _ _ r1 r2).
Qed.

(** X15: the edges of [firstCommonSubstring]: an empty argument gives the
    empty string, a string against itself gives the string, and the result
    is the whole first argument exactly when it is a prefix of the
    second. *)
Theorem firstCommonSubstring_edges (left right : string) :
  firstCommonSubstring "" right = ""
  ∧ firstCommonSubstring left "" = ""
  ∧ firstCommonSubstring left left = left
  ∧ (firstCommonSubstring left right = left
     ↔ ∃ rest, right = left +:+ rest).
Proof.
  pose proof firstCommonSubstring_of_prefix as Hwhole.
  split; [by apply Hwhole; exists right|].
  split.
  - destruct (firstCommonSubstring_spec left "") as (_ & Hr & _).
    by apply length_zero_empty, Nat.le_0_r.
  - split; [by apply Hwhole; exists ""; rewrite append_empty_r|].
    split; [|apply Hwhole].
    intros Hleft.
    destruct (firstCommonSubstring_prefix_right left right) as [rest Hr].
    exists rest. by rewrite Hleft in Hr.
Qed.

(** X16: the two excerpts of a report are the same text exactly when the
    two renderings are, and then both are empty: renderings that differ
    always show a difference in the excerpts. *)
Theorem excerpts_equal_iff (expectedFormattedCode actualFormattedCode
    : string) :
  (substr expectedFormattedCode
     (String.length
        (firstCommonSubstring expectedFormattedCode actualFormattedCode))
     excerptLength
   = substr actualFormattedCode
       (String.length
          (firstCommonSubstring expectedFormattedCode actualFormattedCode))
       excerptLength
   ↔ expectedFormattedCode = actualFormattedCode)
  ∧ substr expectedFormattedCode
      (String.length
         (firstCommonSubstring expectedFormattedCode expectedFormattedCode))
      excerptLength = "".
Proof.
  split.
  - split; [|by intros ->].
    destruct (firstCommonSubstring_prefix_left expectedFormattedCode
                actualFormattedCode) as [le Hle].
    destruct (firstCommonSubstring_prefix_right expectedFormattedCode
                actualFormattedCode) as [la Hla].
    pose proof (firstCommonSubstring_mismatch expectedFormattedCode
                  actualFormattedCode) as Hmismatch.
    set (c := firstCommonSubstring expectedFormattedCode
                actualFormattedCode) in *.
    unfold substr. intros Heq. rewrite Hle, Hla in Heq.
    rewrite !substring_after_prefix in Heq.
    destruct le as [|a le], la as [|b la]; try done.
    + by rewrite Hle, Hla.
    + simpl in Heq. injection Heq as -> _.
      by destruct (Hmismatch b b le la).
  - rewrite (firstCommonSubstring_of_prefix expectedFormattedCode
               expectedFormattedCode)
      by (by exists ""; rewrite append_empty_r).
    unfold substr.
    rewrite <- (append_empty_r expectedFormattedCode) at 2.
    by rewrite substring_after_prefix.
Qed.

(** *** testSection and testCase: the directives at their edges *)

(** X17: a [throws] that is neither [true], nor [false], nor a string
    (as [null], a number or an object) asks for nothing: the entry is run
    as one without [throws], and passes exactly when the transform returns
    and its result compares equal to [output]. *)
Theorem testSection_other_directives
    (transform : string → value → M string) (options : value)
    (info : testInfo) :
  ti_throws info ≠ VBool true →
  ti_throws info ≠ VBool false →
  (∀ text, ti_throws info ≠ VStr text) →
  test_callback transform options info
  = test_callback transform options
      (TestInfo VUndefined (ti_input info) (ti_output info)
         (ti_options info))
  ∧ (passes (test_callback transform options info)
     ↔ ∃ code, outcome (transform (ti_input info) (ti_options info))
               = Return code
               ∧ assertSourceAstEqual (ti_output info) code options
                 = mret tt).
Proof.
  intros Htrue Hfalse Htext.
  assert (test_callback transform options info
          = expect_not_toThrow
              (actual ← transform (ti_input info) (ti_options info);
               assertSourceAstEqual (ti_output info) actual options))
    as Hrun.
  { unfold test_callback.
    destruct (ti_throws info) as [| |[|]| |text| |]; try done.
    by destruct (Htext text). }
  split; [by rewrite Hrun|].
  rewrite Hrun. unfold passes, expect_not_toThrow, mbind, M_bind.
  destruct (outcome (transform _ _)) as [code|e]; simpl.
  - destruct (outcome (assertSourceAstEqual _ code options))
      as [[]|e] eqn:Hassert; simpl.
    + split; [|done]. intros _. exists code. split; [done|].
      by apply assertSourceAstEqual_returns_eq.
    + split; [done|]. intros (code' & [= <-] & Hok).
      apply assertSourceAstEqual_returns_eq in Hok. congruence.
  - split; [done|]. by intros (code & [=] & _).
Qed.

Lemma includes_empty (s : string) : includes s "" = true.
Proof. apply includes_spec. by exists "", s. Qed.

(** X18: the empty string is a string directive, although it is falsy:
    [throws: ''] asks for an error and accepts any message, so the entry
    passes exactly when the transform throws. *)
Theorem testSection_empty_directive
    (transform : string → value → M string) (options : value)
    (info : testInfo) :
  ti_throws info = VStr "" →
  (passes (test_callback transform options info)
   ↔ ∃ e, outcome (transform (ti_input info) (ti_options info)) = Throw e).
Proof.
  intros Hthrows. unfold passes, test_callback, expect_toThrow_text.
  rewrite Hthrows.
  destruct (outcome (transform _ _)) as [code|e]; simpl.
  - split; [done|]. by intros [e [=]].
  - rewrite includes_empty. simpl. split; [eauto|done].
Qed.

(** X19: an entry with a directive ([true], [false] or a string) is never
    compared: its test does not depend on [output] or on the shared
    options, and writes to the console what the transform wrote and
    nothing more. *)
Theorem testSection_directive_never_compares
    (transform : string → value → M string) (options options' : value)
    (info : testInfo) (output' : string) :
  ti_throws info = VBool true ∨ ti_throws info = VBool false
  ∨ (∃ text, ti_throws info = VStr text) →
  test_callback transform options info
  = test_callback transform options'
      (TestInfo (ti_throws info) (ti_input info) output' (ti_options info))
  ∧ console (test_callback transform options info)
    = console (transform (ti_input info) (ti_options info)).
Proof.
  unfold test_callback. simpl.
  intros [->|[->|[text ->]]]; (split; [done|]).
  - unfold expect_toThrow. by destruct (outcome (transform _ _)).
  - unfold mbind, M_bind.
    destruct (outcome (transform _ _)); simpl; [apply app_nil_r|done].
  - unfold expect_toThrow_text.
    destruct (outcome (transform _ _)) as [code|e]; [done|].
    by destruct (includes _ _).
Qed.

(** X20: with [testCase] the [options] of an entry are dead: the default
    transform drops them, so the group registered for a table is the
    group registered for the same table with every entry's [options]
    replaced by any one value. *)
Theorem testCase_ignores_entry_options (name : string) (plugins : plugins_t)
    (testData : list (string * testInfo)) (options entry_options : value) :
  testCase name plugins
    ((λ entry, (entry.1,
                TestInfo (ti_throws entry.2) (ti_input entry.2)
                  (ti_output entry.2) entry_options)) <$> testData)
    options
  = testCase name plugins testData options.
Proof.
  unfold testCase, testSection. f_equal.
  rewrite <- list_fmap_compose. apply list_fmap_ext.
  by intros i [test [throws_directive input output entry]] _.
Qed.

(** X21: building the report cannot fail where the comparison succeeded in
    starting: [prettyPrint] throws on a source exactly the error
    [normalizeSourceCode] throws on it, so it returns for every source
    that was normalized. *)
Theorem prettyPrint_fails_with_normalizeSourceCode (source : string) :
  (∀ e, prettyPrint source = throw e ↔ normalizeSourceCode source = throw e)
  ∧ (∀ options tree,
       normalize source options = mret tree →
       ∃ text, prettyPrint source = mret text).
Proof.
  split.
  - intros e.
    destruct (normalizeSourceCode_cases source)
      as [(ast & _ & -> & ->)|(e' & _ & -> & ->)]; done.
  - intros options tree Hn.
    destruct (normalize_prettyPrint _ _ _ Hn) as (ast & _ & Hpp). eauto.
Qed.

End TestUtil.

(** ** Runs on the concrete toolchain *)

Local Abbreviation toy_stripMeta := (stripMeta Toy.TypeError).
Local Abbreviation toy_normalize :=
  (normalize Toy.parse Toy.generate Toy.trim Toy.TypeError).
Local Abbreviation toy_assertSourceAstEqual :=
  (assertSourceAstEqual Toy.parse Toy.generate Toy.trim Toy.diffString
     Toy.AssertionError Toy.TypeError Toy.Error_stack).
Local Abbreviation toy_transform :=
  (getDefaultTransformForPlugins unit Toy.transformSync tt).
Local Abbreviation toy_test_callback :=
  (test_callback Toy.parse Toy.generate Toy.trim Toy.diffString
     Toy.AssertionError Toy.TypeError Toy.Error_stack
     Toy.JestAssertionError).
Local Abbreviation with_comments := (Toy.obj [("comments", VBool true)]).

(** Layout is not compared: positions are stripped, and both sides are
    re-printed before they are parsed for comparison. *)
Example layout_is_ignored :
  toy_assertSourceAstEqual "let x = 1;" "  let x = 1;  " VUndefined
  = mret tt.
Proof. by vm_compute. Qed.

(** Comments are compared only when [options.comments] is set. *)
Example comments_are_ignored_by_default :
  toy_assertSourceAstEqual "#let x = 1;" "let x = 1;" VUndefined = mret tt.
Proof. by vm_compute. Qed.

Example comments_are_compared_on_request :
  ∃ e, outcome (toy_assertSourceAstEqual "#let x = 1;" "let x = 1;"
                  with_comments) = Throw e
       ∧ err_name e = "Error".
Proof. eexists. split; by vm_compute. Qed.

Example firstCommonSubstring_digits :
  firstCommonSubstring "let x = 1;" "let x = 2;" = "let x = "
  ∧ firstCommonSubstring "abc" "abcdef" = "abc"
  ∧ firstCommonSubstring "abcdef" "abc" = "abc"
  ∧ firstCommonSubstring "" "abc" = ""
  ∧ firstCommonSubstring "xbc" "abc" = "".
Proof. by vm_compute. Qed.

Lemma assertSourceAstEqual_returns_iff_equal_witness :
  toy_assertSourceAstEqual "let x = 1;" "  let x = 1;  " VUndefined
  = mret tt.
Proof.
  eapply (assertSourceAstEqual_returns_iff_equal Toy.parse Toy.generate
            Toy.trim Toy.diffString Toy.AssertionError Toy.TypeError
            Toy.Error_stack "let x = 1;" "  let x = 1;  " VUndefined).
  - vm_compute. reflexivity.
  - vm_compute. reflexivity.
  - vm_compute. reflexivity.
Defined.

Lemma testSection_dispatch_witness :
  passes (toy_test_callback toy_transform VUndefined
            (TestInfo VUndefined "let x = 1" "let x = 1;" VUndefined))
  ∧ passes (toy_test_callback toy_transform VUndefined
              (TestInfo (VBool true) "" "" VUndefined))
  ∧ passes (toy_test_callback toy_transform VUndefined
              (TestInfo (VStr "to transform") "" "" VUndefined))
  ∧ passes (toy_test_callback toy_transform VUndefined
              (TestInfo (VBool false) "let x = 1" "let y" VUndefined)).
Proof.
  pose proof (testSection_dispatch Toy.parse Toy.generate Toy.trim
                Toy.diffString Toy.AssertionError Toy.TypeError
                Toy.Error_stack Toy.JestAssertionError [] toy_transform
                VUndefined) as [_ Hdispatch].
  split; [|split; [|split]].
  - destruct (Hdispatch (TestInfo VUndefined "let x = 1" "let x = 1;"
                           VUndefined)) as (_ & _ & _ & Hnone).
    apply Hnone; [done|].
    exists "let x = 1;". split; by vm_compute.
  - destruct (Hdispatch (TestInfo (VBool true) "" "" VUndefined))
      as (Htrue & _).
    apply Htrue; [done|]. eexists. vm_compute. reflexivity.
  - destruct (Hdispatch (TestInfo (VStr "to transform") "" "" VUndefined))
      as (_ & Htext & _).
    apply (Htext "to transform"); [done|].
    eexists. split; [vm_compute; reflexivity|]. by exists "nothing ", "".
  - destruct (Hdispatch (TestInfo (VBool false) "let x = 1" "let y"
                           VUndefined)) as (_ & _ & Hfalse & _).
    apply Hfalse; [done|]. eexists. vm_compute. reflexivity.
Defined.

Lemma stripMeta_deletes_excluded_fields_witness :
  ∃ m m' m'',
    lookup_path [Field "body"; Index 0] Toy.annotated = Some (VObj m)
    ∧ Forall (λ k, is_Some (m !! k))
        [ "__clone"; "start"; "end"; "raw"; "rawValue"; "loc"; "tokens";
          "parenthesized"; "parenStart"; "leadingComments";
          "trailingComments" ]
    ∧ lookup_path [Field "body"; Index 0]
        (stripMeta_node VUndefined Toy.annotated) = Some (VObj m')
    ∧ Forall (λ k, m' !! k = None)
        [ "__clone"; "start"; "end"; "raw"; "rawValue"; "loc"; "tokens";
          "parenthesized"; "parenStart"; "leadingComments";
          "trailingComments" ]
    ∧ lookup_path [Field "body"; Index 0]
        (stripMeta_node with_comments Toy.annotated) = Some (VObj m'')
    ∧ Forall (λ k, m'' !! k = None)
        [ "__clone"; "start"; "end"; "raw"; "rawValue"; "loc"; "tokens";
          "parenthesized"; "parenStart" ]
    ∧ is_Some (m'' !! "leadingComments")
    ∧ is_Some (m'' !! "trailingComments").
Proof.
  pose proof (stripMeta_deletes_excluded_fields Toy.TypeError Toy.annotated
                VUndefined (stripMeta_node VUndefined Toy.annotated)
                eq_refl) as [Hdropped _].
  pose proof (stripMeta_deletes_excluded_fields Toy.TypeError Toy.annotated
                with_comments (stripMeta_node with_comments Toy.annotated)
                eq_refl) as [Hkept_out Hkept].
  edestruct (Hkept eq_refl [Field "body"; Index 0])
    as (m'' & Hm'' & Hleading & Htrailing).
  { vm_compute. reflexivity. }
  { intros Hthrough%through_b_spec. by vm_compute in Hthrough. }
  eexists _, _, m''.
  split; [vm_compute; reflexivity|].
  split; [repeat constructor; eexists; vm_compute; reflexivity|].
  split; [vm_compute; reflexivity|].
  split.
  { match goal with
    | |- Forall (λ k, ?m' !! k = None) _ =>
        destruct (Hdropped [Field "body"; Index 0] m')
          as [(H1 & H2 & H3 & H4 & H5 & H6 & H7 & H8 & H9) Hcomments];
          [vm_compute; reflexivity|]
    end.
    destruct (Hcomments eq_refl) as [H10 H11].
    repeat (constructor; [assumption|]). constructor. }
  split; [exact Hm''|].
  split.
  { destruct (Hkept_out [Field "body"; Index 0] m'' Hm'')
      as [(H1 & H2 & H3 & H4 & H5 & H6 & H7 & H8 & H9) _].
    repeat (constructor; [assumption|]). constructor. }
  split.
  - rewrite Hleading. eexists. vm_compute. reflexivity.
  - rewrite Htrailing. eexists. vm_compute. reflexivity.
Defined.

Lemma stripMeta_leaves_scalars_witness :
  lookup_path [Field "body"; Index 0; Field "text"]
    (stripMeta_node VUndefined (Toy.program_of "#let x = 1;"))
  = Some (VStr "let x = 1;").
Proof.
  apply (stripMeta_leaves_scalars Toy.TypeError
           (Toy.program_of "#let x = 1;") VUndefined
           (stripMeta_node VUndefined (Toy.program_of "#let x = 1;"))
           eq_refl).
  - vm_compute. reflexivity.
  - reflexivity.
  - intros Hthrough%through_b_spec. by vm_compute in Hthrough.
Defined.

Lemma firstCommonSubstring_and_excerpts_witness :
  ∃ rest,
    firstCommonSubstring "let x = 1;" "let x = 2;" = "let x = " +:+ rest.
Proof.
  apply (firstCommonSubstring_and_excerpts Toy.parse Toy.generate Toy.trim
           Toy.diffString Toy.Error_stack "let x = 1;" "let x = 2;").
  - by exists "1;".
  - by exists "2;".
Defined.

Lemma assertSourceAstEqual_keeps_stack_witness :
  ∃ report,
    toy_assertSourceAstEqual "let x = 1;" "let x = 2;" VUndefined
    = MkM [report] (Throw (JsError "Error" report "at deepStrictEqual")).
Proof.
  edestruct (assertSourceAstEqual_keeps_stack Toy.parse Toy.generate
               Toy.trim Toy.diffString Toy.AssertionError Toy.TypeError
               Toy.Error_stack "let x = 1;" "let x = 2;" VUndefined)
    as (_ & expectedFormattedCode & actualFormattedCode & _ & _ & Hthrown).
  - vm_compute. reflexivity.
  - vm_compute. reflexivity.
  - apply deep_equal_false. vm_compute. reflexivity.
  - eexists. exact Hthrown.
Defined.

Lemma assertSourceAstEqual_parse_error_witness :
  toy_assertSourceAstEqual "let x = !;" "let x = 1;" VUndefined
  = throw Toy.syntax_error
  ∧ toy_assertSourceAstEqual "let x = 1;" "let x = !;" VUndefined
    = throw Toy.syntax_error.
Proof.
  split.
  - destruct (assertSourceAstEqual_parse_error Toy.parse Toy.generate
                Toy.trim Toy.diffString Toy.AssertionError Toy.TypeError
                Toy.Error_stack "let x = !;" "let x = 1;" VUndefined
                Toy.syntax_error) as (Hfirst & _).
    apply Hfirst. by vm_compute.
  - destruct (assertSourceAstEqual_parse_error Toy.parse Toy.generate
                Toy.trim Toy.diffString Toy.AssertionError Toy.TypeError
                Toy.Error_stack "let x = 1;" "let x = !;" VUndefined
                Toy.syntax_error) as (_ & _ & Hactual & _).
    eapply Hactual.
    + vm_compute. reflexivity.
    + by vm_compute.
Defined.

Lemma stripMeta_idempotent_witness :
  toy_stripMeta (stripMeta_node with_comments (Toy.program_of "#let x = 1;"))
    with_comments
  = mret (stripMeta_node with_comments (Toy.program_of "#let x = 1;")).
Proof.
  destruct (stripMeta_idempotent Toy.TypeError
              (Toy.program_of "#let x = 1;") with_comments) as [_ Hagain].
  by apply Hagain.
Defined.

Lemma stripMeta_comments_then_default_witness :
  stripMeta_node VUndefined
    (stripMeta_node with_comments (Toy.program_of "#let x = 1;"))
  = stripMeta_node VUndefined (Toy.program_of "#let x = 1;").
Proof. by apply stripMeta_comments_then_default. Defined.

Lemma assertSourceAstEqual_reflexive_witness :
  toy_assertSourceAstEqual "#let x = 1;" "#let x = 1;" with_comments
  = mret tt.
Proof.
  eapply (assertSourceAstEqual_reflexive Toy.parse Toy.generate Toy.trim
            Toy.diffString Toy.AssertionError Toy.TypeError
            Toy.Error_stack).
  vm_compute. reflexivity.
Defined.

Lemma stripMeta_reads_only_comments_witness :
  toy_stripMeta (Toy.program_of "#let x = 1;") with_comments
  = toy_stripMeta (Toy.program_of "#let x = 1;")
      (Toy.obj [("comments", VStr "yes"); ("plugins", VArr [])]).
Proof. apply stripMeta_reads_only_comments. by vm_compute. Defined.

Lemma assertSourceAstEqual_transitive_witness :
  toy_assertSourceAstEqual "let x = 1;" "let x = 1;  " VUndefined = mret tt.
Proof.
  apply (assertSourceAstEqual_transitive Toy.parse Toy.generate Toy.trim
           Toy.diffString Toy.AssertionError Toy.TypeError Toy.Error_stack
           "let x = 1;" "  let x = 1;" "let x = 1;  " VUndefined);
    by vm_compute.
Defined.

Lemma assertSourceAstEqual_without_comments_witness :
  toy_assertSourceAstEqual "#let x = 1;" "  #let x = 1;" VUndefined
  = mret tt.
Proof.
  apply (assertSourceAstEqual_without_comments Toy.parse Toy.generate
           Toy.trim Toy.diffString Toy.AssertionError Toy.TypeError
           Toy.Error_stack "#let x = 1;" "  #let x = 1;" with_comments
           VUndefined);
    by vm_compute.
Defined.

Lemma assertSourceAstEqual_reads_only_comments_witness :
  toy_assertSourceAstEqual "let x = 1;" "let x = 2;" VUndefined
  = toy_assertSourceAstEqual "let x = 1;" "let x = 2;"
      (Toy.obj [("comments", VStr "")]).
Proof.
  apply (assertSourceAstEqual_reads_only_comments Toy.parse Toy.generate
           Toy.trim Toy.diffString Toy.AssertionError Toy.TypeError
           Toy.Error_stack).
  by vm_compute.
Defined.

Lemma assertSourceAstEqual_same_canonical_text_witness :
  toy_assertSourceAstEqual "let x = 1;" "  let x = 1;  " with_comments
  = mret tt.
Proof.
  eapply (assertSourceAstEqual_same_canonical_text Toy.parse Toy.generate
            Toy.trim Toy.diffString Toy.AssertionError Toy.TypeError
            Toy.Error_stack "let x = 1;" "  let x = 1;  " with_comments
            "let x = 1;").
  - by vm_compute.
  - by vm_compute.
  - vm_compute. reflexivity.
Defined.

Lemma assertSourceAstEqual_errors_witness :
  (∃ code, Toy.parse code (ParserOptions "module" ["flow"; "jsx"])
           = Throw Toy.syntax_error)
  ∨ (∃ what, Toy.syntax_error = Toy.TypeError what)
  ∨ (err_name Toy.syntax_error = "Error"
     ∧ ∃ expectedTree actualTree,
         toy_normalize "let x = 1;" VUndefined = mret expectedTree ∧
         toy_normalize "let x = !;" VUndefined = mret actualTree ∧
         actualTree ≠ expectedTree ∧
         err_stack Toy.syntax_error
         = err_stack (Toy.AssertionError actualTree expectedTree)).
Proof.
  apply (assertSourceAstEqual_errors Toy.parse Toy.generate Toy.trim
           Toy.diffString Toy.AssertionError Toy.TypeError Toy.Error_stack
           "let x = 1;" "let x = !;" VUndefined Toy.syntax_error).
  by vm_compute.
Defined.

Lemma testSection_other_directives_witness :
  passes (toy_test_callback toy_transform VUndefined
            (TestInfo VNull "let x = 1" "let x = 1;" VUndefined)).
Proof.
  destruct (testSection_other_directives Toy.parse Toy.generate Toy.trim
              Toy.diffString Toy.AssertionError Toy.TypeError
              Toy.Error_stack Toy.JestAssertionError toy_transform
              VUndefined
              (TestInfo VNull "let x = 1" "let x = 1;" VUndefined))
    as [_ Hpasses]; [done..|].
  apply Hpasses. exists "let x = 1;". split; by vm_compute.
Defined.

Lemma testSection_empty_directive_witness :
  passes (toy_test_callback toy_transform VUndefined
            (TestInfo (VStr "") "" "" VUndefined)).
Proof.
  apply (testSection_empty_directive Toy.parse Toy.generate Toy.trim
           Toy.diffString Toy.AssertionError Toy.TypeError Toy.Error_stack
           Toy.JestAssertionError toy_transform VUndefined
           (TestInfo (VStr "") "" "" VUndefined)); [done|].
  eexists. vm_compute. reflexivity.
Defined.

Lemma testSection_directive_never_compares_witness :
  toy_test_callback toy_transform VUndefined
    (TestInfo (VBool false) "let x = 1" "let x = 1;" VUndefined)
  = toy_test_callback toy_transform with_comments
      (TestInfo (VBool false) "let x = 1" "let y = 2;" VUndefined).
Proof.
  apply (testSection_directive_never_compares Toy.parse Toy.generate
           Toy.trim Toy.diffString Toy.AssertionError Toy.TypeError
           Toy.Error_stack Toy.JestAssertionError toy_transform VUndefined
           with_comments
           (TestInfo (VBool false) "let x = 1" "let x = 1;" VUndefined)
           "let y = 2;").
  right. by left.
Defined.



(** With that generator the verdict still does not depend on the quotes:
    the raw text of a literal is among the fields [stripMeta] deletes. *)
Example quotes_are_ignored_by_stripping :
  assertSourceAstEqual Toy.parse_literal Toy.generate_raw Toy.trim
    Toy.diffString Toy.AssertionError Toy.TypeError Toy.Error_stack
    (double_quote +:+ "a" +:+ double_quote)
    (single_quote +:+ "a" +:+ single_quote) VUndefined
  = mret tt.
Proof. by vm_compute. Qed.
